(** * A distributed file system simulation with Ricart-Agrawala style
      bookkeeping: shallow embedding and verified properties

    The Go program keeps one [DistributedFileSystem] value shared by all
    client goroutines.  Every client operation ([OpenFile], [CloseFile],
    [ReadFile], [WriteFile]) is embedded as a computation in a state and
    panic monad over a [World]: the shared struct, the heap of [File]
    objects the struct points to, standard output, the pool of spawned but
    not yet executed [SendRequest] goroutines, and the future decisions of
    the Go scheduler.

    Concurrency.  [ReadFile] and [WriteFile] hold [RequestMutex] from their
    first to their last statement, so two of them never overlap.
    [OpenFile] and [CloseFile] touch only the [Files] map and the [IsOpen]
    flag (the latter in a one-assignment critical section of the file's own
    mutex), which [ReadFile] and [WriteFile] neither read nor write; up to
    the order of lines on standard output every execution of the clients is
    therefore an interleaving of whole operations.  The goroutines spawned
    with [go fs.SendRequest(...)] are different: they run at any later
    moment, also in the middle of a [ReadFile] or [WriteFile].  Their only
    shared footprint is [Acknowledged], accessed under [AcknowledgeMutex],
    and the only other reader of that slice is [ReceiveAcknowledge]; the
    model therefore places a scheduling point [Gosched] before every call of
    [ReceiveAcknowledge] and between client operations, at which the
    scheduler decisions stored in the world pick the spawned goroutines that
    run.  Mutexes themselves are not represented: each function below is
    the critical section its locks delimit.

    The primary source is the complete program (the file with timestamps,
    the log file and the deferred array).  The shorter [cls.go] differs in
    [SendRequest], which has no bounds check; it is embedded in module
    [Cls]. *)

From stdpp Require Import base numbers list strings gmap pretty.

(** ** Data model *)

(** A [*File] is an address in the heap of [File] objects. *)
Abbreviation ptr := nat (only parsing).

Record File := mkFile {
  Name : string;
  IsOpen : bool;
  Content : string;
}.

(** [ReqFile] is the field [File] of the Go struct. *)
Record Request := mkRequest {
  ClientID : Z;
  ReqFile : ptr;
  Timestamp : Z;
}.

Record Client := mkClient {
  ID : Z;
  FileName : string;
}.

(** The shared struct without its mutexes.  [LogFile] is the sequence of
    strings written to the log file during this run. *)
Record DistributedFileSystem := mkDFS {
  Files : gmap string ptr;
  Requests : list Request;
  Acknowledged : list bool;
  Timestamps : list Z;
  LogFile : list string;
  DeferredArray : list string;
}.

(** Calls that leave no mark in the shared struct are recorded in a
    history: every [go] statement, every execution of a spawned
    [SendRequest], and every call of [ReceiveAcknowledge] together with the
    exit it took ([true]: it fell through the loop and reset the slice;
    [false]: it returned from inside the loop). *)
Inductive event :=
  | EvGo (clientID : Z) (request : Request)
  | EvSendRequest (clientID : Z) (request : Request)
  | EvReceiveAcknowledge (full : bool).

Record World := mkWorld {
  fs : DistributedFileSystem;
  heap : list File;
  stdout : list string;
  goroutines : list (Z * Request);
  sched : list (list nat);
  history : list event;
}.

(** Run-time panics of Go that the program can raise. *)
Inductive panic :=
  | IndexOutOfRange (i : Z) (len : nat)
  | NilDereference (p : ptr)
  | MakeNegativeLen (n : Z).

Inductive outcome (A : Type) :=
  | Ok (a : A)
  | Panic (e : panic).
Arguments Ok {A} a.
Arguments Panic {A} e.

(** Results of the storage collaborator ([ioutil.ReadFile]). *)
Inductive result (A : Type) :=
  | Success (a : A)
  | Failure (err : string).
Arguments Success {A} a.
Arguments Failure {A} err.

(** ** Field updates *)

Definition set_Files (g : gmap string ptr → gmap string ptr) (d : DistributedFileSystem) :=
  mkDFS (g (Files d)) (Requests d) (Acknowledged d) (Timestamps d) (LogFile d) (DeferredArray d).
Definition set_Requests (g : list Request → list Request) (d : DistributedFileSystem) :=
  mkDFS (Files d) (g (Requests d)) (Acknowledged d) (Timestamps d) (LogFile d) (DeferredArray d).
Definition set_Acknowledged (g : list bool → list bool) (d : DistributedFileSystem) :=
  mkDFS (Files d) (Requests d) (g (Acknowledged d)) (Timestamps d) (LogFile d) (DeferredArray d).
Definition set_Timestamps (g : list Z → list Z) (d : DistributedFileSystem) :=
  mkDFS (Files d) (Requests d) (Acknowledged d) (g (Timestamps d)) (LogFile d) (DeferredArray d).
Definition set_LogFile (g : list string → list string) (d : DistributedFileSystem) :=
  mkDFS (Files d) (Requests d) (Acknowledged d) (Timestamps d) (g (LogFile d)) (DeferredArray d).
Definition set_DeferredArray (g : list string → list string) (d : DistributedFileSystem) :=
  mkDFS (Files d) (Requests d) (Acknowledged d) (Timestamps d) (LogFile d) (g (DeferredArray d)).

Definition set_fs (g : DistributedFileSystem → DistributedFileSystem) (w : World) :=
  mkWorld (g (fs w)) (heap w) (stdout w) (goroutines w) (sched w) (history w).
Definition set_heap (g : list File → list File) (w : World) :=
  mkWorld (fs w) (g (heap w)) (stdout w) (goroutines w) (sched w) (history w).
Definition set_stdout (g : list string → list string) (w : World) :=
  mkWorld (fs w) (heap w) (g (stdout w)) (goroutines w) (sched w) (history w).
Definition set_goroutines (g : list (Z * Request) → list (Z * Request)) (w : World) :=
  mkWorld (fs w) (heap w) (stdout w) (g (goroutines w)) (sched w) (history w).
Definition set_sched (g : list (list nat) → list (list nat)) (w : World) :=
  mkWorld (fs w) (heap w) (stdout w) (goroutines w) (g (sched w)) (history w).
Definition set_history (g : list event → list event) (w : World) :=
  mkWorld (fs w) (heap w) (stdout w) (goroutines w) (sched w) (g (history w)).

Definition set_IsOpen (b : bool) (f : File) := mkFile (Name f) b (Content f).
Definition set_Content (s : string) (f : File) := mkFile (Name f) (IsOpen f) s.

(** ** The monad of operations *)

Definition M (A : Type) := World → outcome (A * World).

Definition ret {A} (a : A) : M A := λ w, Ok (a, w).

Definition bind {A B} (m : M A) (k : A → M B) : M B := λ w,
  match m w with
  | Ok (a, w') => k a w'
  | Panic e => Panic e
  end.

Declare Scope go_scope.
Delimit Scope go_scope with go.
Notation "x <- m ;; k" := (bind m (λ x, k))
  (at level 100, m at next level, right associativity) : go_scope.
Notation "m ;; k" := (bind m (λ _, k))
  (at level 100, right associativity) : go_scope.
Open Scope go_scope.

Definition gets {A} (g : World → A) : M A := λ w, Ok (g w, w).
Definition modify (g : World → World) : M unit := λ w, Ok (tt, g w).
Definition raise {A} (e : panic) : M A := λ _, Panic e.

Definition modify_fs (g : DistributedFileSystem → DistributedFileSystem) : M unit :=
  modify (set_fs g).

(** [for _, x := range xs { body }]. *)
Fixpoint for_range {A} (xs : list A) (body : A → M unit) : M unit :=
  match xs with
  | [] => ret tt
  | x :: xs' => body x ;; for_range xs' body
  end.

(** Line feed, and the two printing functions of [fmt] on standard output. *)
Definition nl : string := String (Ascii.ascii_of_nat 10) EmptyString.

Definition Printf (s : string) : M unit := modify (set_stdout (λ out, out ++ [s])).
Definition Println (s : string) : M unit := Printf (s +:+ nl).

(** Pointer dereference for reading and for writing one object, and
    allocation of [&File{...}]. *)
Definition load (p : ptr) : M File := λ w,
  match heap w !! p with
  | Some f => Ok (f, w)
  | None => Panic (NilDereference p)
  end.

Definition store (p : ptr) (g : File → File) : M unit := λ w,
  match heap w !! p with
  | Some f => Ok (tt, set_heap (λ h, <[p := g f]> h) w)
  | None => Panic (NilDereference p)
  end.

Definition new (f : File) : M ptr := λ w,
  Ok (length (heap w), set_heap (λ h, h ++ [f]) w).

(** [s[i] = v] on a slice, with Go's index check. *)
Definition slice_store {A} (s : list A) (i : Z) (v : A) : outcome (list A) :=
  if bool_decide (0 ≤ i < Z.of_nat (length s))%Z
  then Ok (<[Z.to_nat i := v]> s)
  else Panic (IndexOutOfRange i (length s)).

Definition record (e : event) : M unit := modify (set_history (λ h, h ++ [e])).

(** [go fs.SendRequest(clientID, request)]: the call joins the pool. *)
Definition go (clientID : Z) (request : Request) : M unit :=
  record (EvGo clientID request) ;;
  modify (set_goroutines (λ g, g ++ [(clientID, request)])).

(** ** The acknowledgment slice *)

(** [SendRequest]: the guard compares the client id with the length only;
    the indexed assignment then performs Go's own bounds check. *)
Definition SendRequest (clientID : Z) (request : Request) : M unit :=
  record (EvSendRequest clientID request) ;;
  Printf ("Client " +:+ pretty clientID +:+ " sent request to client "
          +:+ pretty (ClientID request) +:+ nl) ;;
  acks <- gets (λ w, Acknowledged (fs w)) ;;
  if bool_decide (ClientID request < Z.of_nat (length acks))%Z then
    match slice_store acks (ClientID request) true with
    | Ok acks' => modify_fs (set_Acknowledged (λ _, acks'))
    | Panic e => raise e
    end
  else
    Println "Invalid client ID in SendRequest......".

(** The loop of [ReceiveAcknowledge]: [false] when it meets a [false]
    slot and returns, [true] when it runs to the end of the slice. *)
Fixpoint all_true (acks : list bool) : bool :=
  match acks with
  | [] => true
  | b :: rest => if negb b then false else all_true rest
  end.

(** [ReceiveAcknowledge] has no result in Go; the boolean returned here
    tells which of its two exits was taken. *)
Definition ReceiveAcknowledge : M bool :=
  acks <- gets (λ w, Acknowledged (fs w)) ;;
  if all_true acks then
    n <- gets (λ w, length (Requests (fs w))) ;;
    modify_fs (set_Acknowledged (λ _, replicate n false)) ;;
    Println "All acknowledgments received" ;;
    record (EvReceiveAcknowledge true) ;;
    ret true
  else
    record (EvReceiveAcknowledge false) ;;
    ret false.

(** ** The scheduler *)

(** The goroutine at position [k] of the pool runs to completion. *)
Definition run_goroutine (k : nat) : M unit := λ w,
  match goroutines w !! k with
  | Some (clientID, request) =>
      SendRequest clientID request (set_goroutines (delete k) w)
  | None => Ok (tt, w)
  end.

(** A scheduling point: the next decision of the scheduler lists the
    pool positions of the goroutines that run now, in that order. *)
Definition Gosched : M unit := λ w,
  match sched w with
  | ks :: rest => for_range ks run_goroutine (set_sched (λ _, rest) w)
  | [] => Ok (tt, w)
  end.

(** ** Log file and deferred array *)

Definition LogRequest (clientID : Z) (action fileName : string) (timestamp : Z) : M unit :=
  let logEntry := "Client " +:+ pretty clientID +:+ " " +:+ action +:+ " file "
                  +:+ fileName +:+ " at timestamp " +:+ pretty timestamp +:+ nl in
  modify_fs (set_LogFile (λ l, l ++ [logEntry])).

Definition AddDeferredOperation (operation : string) : M unit :=
  modify_fs (set_DeferredArray (λ d, d ++ [operation])).

(** ** File registry *)

(** [disk] is what [ioutil.ReadFile fileName] answers if it is called. *)
Definition OpenFile (clientID : Z) (fileName : string) (disk : result string)
  : M (option ptr) :=
  files <- gets (λ w, Files (fs w)) ;;
  match files !! fileName with
  | None =>
      match disk with
      | Failure err =>
          Printf ("Error opening file " +:+ fileName +:+ ": " +:+ err +:+ nl) ;;
          ret None
      | Success fileContent =>
          file <- new (mkFile fileName true fileContent) ;;
          modify_fs (set_Files (λ m, <[fileName := file]> m)) ;;
          Printf ("Client " +:+ pretty clientID +:+ " opened file " +:+ fileName +:+ nl) ;;
          ret (Some file)
      end
  | Some file =>
      store file (set_IsOpen true) ;;
      Printf ("Client " +:+ pretty clientID +:+ " opened file " +:+ fileName +:+ nl) ;;
      ret (Some file)
  end.

Definition CloseFile (file : ptr) : M unit :=
  store file (set_IsOpen false) ;;
  f <- load file ;;
  Printf ("File " +:+ Name f +:+ " closed" +:+ nl).

(** ** Read and write *)

(** The statements [ReadFile] and [WriteFile] have in common: the
    timestamp, the new request, the loop of [go] statements and the loop
    of [ReceiveAcknowledge] calls.  The result is the timestamp. *)
Definition submit (clientID : Z) (file : ptr) : M Z :=
  ts <- gets (λ w, Timestamps (fs w)) ;;
  let timestamp := (Z.of_nat (length ts) + 1)%Z in
  modify_fs (set_Timestamps (λ ts, ts ++ [timestamp])) ;;
  let request := mkRequest clientID file timestamp in
  modify_fs (set_Requests (λ rs, rs ++ [request])) ;;
  rs <- gets (λ w, Requests (fs w)) ;;
  for_range rs (λ r,
    if bool_decide (ClientID r ≠ clientID) then go clientID r else ret tt) ;;
  rs <- gets (λ w, Requests (fs w)) ;;
  for_range rs (λ r,
    if bool_decide (ClientID r ≠ clientID)
    then Gosched ;; _ <- ReceiveAcknowledge ;; ret tt
    else ret tt) ;;
  ret timestamp.

Definition ReadFile (clientID : Z) (file : ptr) : M unit :=
  timestamp <- submit clientID file ;;
  f <- load file ;;
  Printf ("Client " +:+ pretty clientID +:+ " read file " +:+ Name f +:+ ": "
          +:+ Content f +:+ nl) ;;
  LogRequest clientID "Read" (Name f) timestamp ;;
  AddDeferredOperation ("Read by Client " +:+ pretty clientID).

(** [disk] is the error of [ioutil.WriteFile], if any. *)
Definition WriteFile (clientID : Z) (file : ptr) (content : string)
    (disk : option string) : M unit :=
  timestamp <- submit clientID file ;;
  store file (set_Content content) ;;
  f <- load file ;;
  match disk with
  | Some err =>
      Printf ("Error writing to file " +:+ Name f +:+ ": " +:+ err +:+ nl)
  | None =>
      Printf ("Client " +:+ pretty clientID +:+ " wrote to file " +:+ Name f +:+ ": "
              +:+ content +:+ nl) ;;
      LogRequest clientID "Write" (Name f) timestamp ;;
      AddDeferredOperation ("Write by Client " +:+ pretty clientID)
  end.

(** ** Runs *)

(** A run of the shared state is a sequence of whole client operations and
    of scheduling points between them. *)
Inductive op :=
  | OpOpenFile (clientID : Z) (fileName : string) (disk : result string)
  | OpCloseFile (file : ptr)
  | OpReadFile (clientID : Z) (file : ptr)
  | OpWriteFile (clientID : Z) (file : ptr) (content : string) (disk : option string)
  | OpGosched.

Definition exec (o : op) : M unit :=
  match o with
  | OpOpenFile clientID fileName disk => _ <- OpenFile clientID fileName disk ;; ret tt
  | OpCloseFile file => CloseFile file
  | OpReadFile clientID file => ReadFile clientID file
  | OpWriteFile clientID file content disk => WriteFile clientID file content disk
  | OpGosched => Gosched
  end.

Definition run (ops : list op) : M unit := for_range ops exec.

(** ** The program [main] *)

(** [make([]bool, n)]. *)
Definition make_bools (n : Z) : outcome (list bool) :=
  if bool_decide (0 ≤ n)%Z then Ok (replicate (Z.to_nat n) false)
  else Panic (MakeNegativeLen n).

(** The world after [main] has built [fileSystem] and read [numClients];
    [sch] is what the scheduler will decide. *)
Definition start (numClients : Z) (sch : list (list nat)) : outcome World :=
  match make_bools numClients with
  | Ok acks => Ok (mkWorld (mkDFS ∅ [] acks [] [] []) [] [] [] sch [])
  | Panic e => Panic e
  end.

(** The body of the goroutine [main] starts for each client, run without
    interruption by other clients.  The calls that only write the
    space-time diagram are left out. *)
Definition client_body (client : Client) (rd : result string) (wr : option string)
  : M unit :=
  file <- OpenFile (ID client) (FileName client) rd ;;
  match file with
  | Some file =>
      WriteFile (ID client) file
        ("Content written by Client " +:+ pretty (ID client)) wr ;;
      ReadFile (ID client) file ;;
      CloseFile file
  | None => ret tt
  end.

(** The same body cut at the points where other clients can take over:
    a client is before one of its four calls, or has returned. *)
Inductive pc :=
  | AtOpenFile
  | AtWriteFile (file : ptr)
  | AtReadFile (file : ptr)
  | AtCloseFile (file : ptr)
  | Returned.

Definition client_step (client : Client) (rd : result string) (wr : option string)
    (at_ : pc) : M pc :=
  match at_ with
  | AtOpenFile =>
      file <- OpenFile (ID client) (FileName client) rd ;;
      match file with
      | Some file => ret (AtWriteFile file)
      | None => ret Returned
      end
  | AtWriteFile file =>
      WriteFile (ID client) file
        ("Content written by Client " +:+ pretty (ID client)) wr ;;
      ret (AtReadFile file)
  | AtReadFile file => ReadFile (ID client) file ;; ret (AtCloseFile file)
  | AtCloseFile file => CloseFile file ;; ret Returned
  | Returned => ret Returned
  end.

(** The client started by iteration [i] of the loop in [main]. *)
Definition client_of (i : nat) : Client := mkClient (Z.of_nat i + 1) "file1.txt".

(** One turn of the interleaving: client goroutine [i] performs its next
    call, with the answers [rd] and [wr] of the storage should it ask; or
    spawned goroutines run between two calls. *)
Inductive turn :=
  | Step (i : nat) (rd : result string) (wr : option string)
  | Background.

Definition take_turn (t : turn) (pcs : list pc) : M (list pc) :=
  match t with
  | Step i rd wr =>
      match pcs !! i with
      | Some at_ =>
          at' <- client_step (client_of i) rd wr at_ ;;
          ret (<[i := at']> pcs)
      | None => ret pcs
      end
  | Background => Gosched ;; ret pcs
  end.

Fixpoint interleave (turns : list turn) (pcs : list pc) : M (list pc) :=
  match turns with
  | [] => ret pcs
  | t :: turns' => pcs' <- take_turn t pcs ;; interleave turns' pcs'
  end.

Definition main (numClients : Z) (sch : list (list nat)) (turns : list turn)
  : outcome (list pc * World) :=
  match start numClients sch with
  | Ok w => interleave turns (replicate (Z.to_nat numClients) AtOpenFile) w
  | Panic e => Panic e
  end.

(** ** The space-time diagram and the final report *)

(** What the program reads from a [time.Time]: its wall-clock hour,
    minute and second. *)
Record Time := mkTime {
  Hour : Z;
  Minute : Z;
  Second : Z;
}.

(** [t.Format("15:04:05")]: hour, minute and second on two digits. *)
Definition two_digits (n : Z) : string :=
  if bool_decide (n < 10)%Z then "0" +:+ pretty n else pretty n.

Definition Format (t : Time) : string :=
  two_digits (Hour t) +:+ ":" +:+ two_digits (Minute t) +:+ ":" +:+ two_digits (Second t).

(** [for i := 0; i < n; i++ { s += c }]. *)
Definition append_times (n : Z) (c : string) (s : string) : string :=
  Nat.iter (Z.to_nat n) (λ s, s +:+ c) s.

(** [printSpaceTimeDiagram]: the three strings it writes to the output
    file.  [seconds] is the value of [int(duration.Seconds())], which the
    [time] package computes from the two times. *)
Definition printSpaceTimeDiagram (clientID : Z) (startTime endTime : Time) (seconds : Z)
  : list string :=
  let spacesBefore := (Hour startTime * 3600 + Minute startTime * 60 + Second startTime)%Z in
  let spacesAfter := (24 * 3600 - spacesBefore - seconds)%Z in
  let spaceLine := EmptyString in
  let spaceLine := append_times spacesBefore " " spaceLine in
  let spaceLine := append_times seconds "-" spaceLine in
  let spaceLine := append_times spacesAfter " " spaceLine in
  ["Client " +:+ pretty clientID +:+ ": " +:+ Format startTime +:+ " - "
     +:+ Format endTime +:+ nl;
   spaceLine +:+ nl;
   nl].

(** [for i, x := range xs { body }], with the index starting at [i]. *)
Fixpoint for_range_from {A} (i : Z) (xs : list A) (body : Z → A → M unit) : M unit :=
  match xs with
  | [] => ret tt
  | x :: xs' => body i x ;; for_range_from (i + 1) xs' body
  end.

(** The last statements of [main], after all clients have returned. *)
Definition report : M unit :=
  Println "Deferred Array Operations:" ;;
  ops <- gets (λ w, DeferredArray (fs w)) ;;
  for_range_from 0 ops (λ i operation,
    Printf (pretty (i + 1)%Z +:+ ". " +:+ operation +:+ nl)).

(** ** The variant of [cls.go] *)

Module Cls.

(** [SendRequest] of [cls.go] indexes [Acknowledged] without any guard.
    (Requests have no timestamp in that file; the field is ignored.) *)
Definition SendRequest (clientID : Z) (request : Request) : M unit :=
  record (EvSendRequest clientID request) ;;
  Printf ("Client " +:+ pretty clientID +:+ " sent request to client "
          +:+ pretty (ClientID request) +:+ nl) ;;
  acks <- gets (λ w, Acknowledged (fs w)) ;;
  match slice_store acks (ClientID request) true with
  | Ok acks' => modify_fs (set_Acknowledged (λ _, acks'))
  | Panic e => raise e
  end.

(** The world [main] of [cls.go] starts from: [Acknowledged] is empty. *)
Definition start (sch : list (list nat)) : World :=
  mkWorld (mkDFS ∅ [] [] [] [] []) [] [] [] sch [].

(** A spawned goroutine of [cls.go] runs its [SendRequest]. *)
Definition run_goroutine (k : nat) : M unit := λ w,
  match goroutines w !! k with
  | Some (clientID, request) =>
      SendRequest clientID request (set_goroutines (delete k) w)
  | None => Ok (tt, w)
  end.

Definition Gosched : M unit := λ w,
  match sched w with
  | ks :: rest => for_range ks run_goroutine (set_sched (λ _, rest) w)
  | [] => Ok (tt, w)
  end.

(** The statements [ReadFile] and [WriteFile] of [cls.go] have in common:
    the new request (without timestamp; the field is set to 0), the loop
    of [go] statements and the loop of [ReceiveAcknowledge] calls. *)
Definition submit (clientID : Z) (file : ptr) : M unit :=
  let request := mkRequest clientID file 0 in
  modify_fs (set_Requests (λ rs, rs ++ [request])) ;;
  rs <- gets (λ w, Requests (fs w)) ;;
  for_range rs (λ r,
    if bool_decide (ClientID r ≠ clientID) then go clientID r else ret tt) ;;
  rs <- gets (λ w, Requests (fs w)) ;;
  for_range rs (λ r,
    if bool_decide (ClientID r ≠ clientID)
    then Gosched ;; _ <- ReceiveAcknowledge ;; ret tt
    else ret tt).

Definition ReadFile (clientID : Z) (file : ptr) : M unit :=
  submit clientID file ;;
  f <- load file ;;
  Printf ("Client " +:+ pretty clientID +:+ " read file " +:+ Name f +:+ ": "
          +:+ Content f +:+ nl).

Definition WriteFile (clientID : Z) (file : ptr) (content : string)
    (disk : option string) : M unit :=
  submit clientID file ;;
  store file (set_Content content) ;;
  f <- load file ;;
  match disk with
  | Some err =>
      Printf ("Error writing to file " +:+ Name f +:+ ": " +:+ err +:+ nl)
  | None =>
      Printf ("Client " +:+ pretty clientID +:+ " wrote to file " +:+ Name f +:+ ": "
              +:+ content +:+ nl)
  end.

(** The three clients of [main] in [cls.go], with what they write. *)
Definition clients : list (Client * string) :=
  [(mkClient 1 "file1.txt", "Deepan is bad boy");
   (mkClient 2 "file1.txt", "Deepan is good boy");
   (mkClient 3 "file1.txt", "Deepan is good boy")].

Definition client_step (client : Client) (content : string)
    (rd : result string) (wr : option string) (at_ : pc) : M pc :=
  match at_ with
  | AtOpenFile =>
      file <- OpenFile (ID client) (FileName client) rd ;;
      match file with
      | Some file => ret (AtWriteFile file)
      | None => ret Returned
      end
  | AtWriteFile file => WriteFile (ID client) file content wr ;; ret (AtReadFile file)
  | AtReadFile file => ReadFile (ID client) file ;; ret (AtCloseFile file)
  | AtCloseFile file => CloseFile file ;; ret Returned
  | Returned => ret Returned
  end.

Definition take_turn (t : turn) (pcs : list pc) : M (list pc) :=
  match t with
  | Step i rd wr =>
      match pcs !! i, clients !! i with
      | Some at_, Some (client, content) =>
          at' <- client_step client content rd wr at_ ;;
          ret (<[i := at']> pcs)
      | _, _ => ret pcs
      end
  | Background => Gosched ;; ret pcs
  end.

Fixpoint interleave (turns : list turn) (pcs : list pc) : M (list pc) :=
  match turns with
  | [] => ret pcs
  | t :: turns' => pcs' <- take_turn t pcs ;; interleave turns' pcs'
  end.

Definition main (sch : list (list nat)) (turns : list turn) : outcome (list pc * World) :=
  interleave turns (replicate (length clients) AtOpenFile) (start sch).

(** The body of the second loop of [submit]. *)
Definition poll_body (clientID : Z) (r : Request) : M unit :=
  if bool_decide (ClientID r ≠ clientID)
  then Gosched ;; _ <- ReceiveAcknowledge ;; ret tt
  else ret tt.

End Cls.

(** * Vocabulary of the properties *)

(** ** Reasoning about computations *)

(** A relation between the world before and after that every successful
    execution of [m] satisfies. *)
Definition preserves {A} (R : World → World → Prop) (m : M A) : Prop :=
  ∀ w a w', m w = Ok (a, w') → R w w'.

(** ** The acknowledgment slice *)

(** The world [ReceiveAcknowledge] leaves when every slot is [true]. *)
Definition reset_world (w : World) : World :=
  set_history (λ h, h ++ [EvReceiveAcknowledge true])
    (set_stdout (λ out, out ++ ["All acknowledgments received" +:+ nl])
      (set_fs (set_Acknowledged (λ _, replicate (length (Requests (fs w))) false)) w)).

(** The world in which a spawned [SendRequest] has announced itself. *)
Definition announced (clientID : Z) (request : Request) (w : World) : World :=
  set_stdout (λ out, out ++ ["Client " +:+ pretty clientID +:+ " sent request to client "
                              +:+ pretty (ClientID request) +:+ nl])
    (set_history (λ h, h ++ [EvSendRequest clientID request]) w).

(** What the spawned goroutines can do to the world: they leave the
    files, the ledger and the logs alone, keep the length of
    [Acknowledged], set a slot only if a pooled call targets it, leave the
    pool by running, and extend the history by their own executions. *)
Record background (w w' : World) : Prop := mkBackground {
  bg_Files : Files (fs w') = Files (fs w);
  bg_Requests : Requests (fs w') = Requests (fs w);
  bg_Timestamps : Timestamps (fs w') = Timestamps (fs w);
  bg_LogFile : LogFile (fs w') = LogFile (fs w);
  bg_DeferredArray : DeferredArray (fs w') = DeferredArray (fs w);
  bg_heap : heap w' = heap w;
  bg_length : length (Acknowledged (fs w')) = length (Acknowledged (fs w));
  bg_pool : goroutines w' ⊆ goroutines w;
  bg_slot : ∀ i, Acknowledged (fs w') !! i = Some true →
      Acknowledged (fs w) !! i = Some true ∨
      ∃ c r, (c, r) ∈ goroutines w ∧ ClientID r = Z.of_nat i;
  bg_history : ∃ evs, history w' = history w ++ evs ∧
      Forall (λ e, ∃ c r, e = EvSendRequest c r ∧ (c, r) ∈ goroutines w) evs;
}.

(** ** The common part of [ReadFile] and [WriteFile] *)

(** The requests of other clients, in ledger order. *)
Definition others (clientID : Z) (rs : list Request) : list Request :=
  filter (λ r, ClientID r ≠ clientID) rs.

(** The [go] statements and the [ReceiveAcknowledge] calls of a history. *)
Definition gos (evs : list event) : list (Z * Request) :=
  omap (λ e, match e with EvGo c r => Some (c, r) | _ => None end) evs.

Definition polls (evs : list event) : list bool :=
  omap (λ e, match e with EvReceiveAcknowledge b => Some b | _ => None end) evs.

(** What the second loop can do: nothing to the files, the ledger and the
    logs; the pool only shrinks. *)
Record quiet (w w' : World) : Prop := mkQuiet {
  q_Files : Files (fs w') = Files (fs w);
  q_Requests : Requests (fs w') = Requests (fs w);
  q_Timestamps : Timestamps (fs w') = Timestamps (fs w);
  q_LogFile : LogFile (fs w') = LogFile (fs w);
  q_DeferredArray : DeferredArray (fs w') = DeferredArray (fs w);
  q_heap : heap w' = heap w;
  q_pool : goroutines w' ⊆ goroutines w;
}.

(** The body of the second loop of [submit]. *)
Definition poll_body (clientID : Z) (r : Request) : M unit :=
  if bool_decide (ClientID r ≠ clientID)
  then Gosched ;; _ <- ReceiveAcknowledge ;; ret tt
  else ret tt.

(** The effect of the common part: a fresh timestamp, one new request at
    the end of the ledger, then the [go] statements, then the calls of
    [ReceiveAcknowledge]. *)
Record submitted (clientID : Z) (file : ptr) (w : World) (t : Z) (w' : World) : Prop :=
  mkSubmitted {
  sub_timestamp : t = (Z.of_nat (length (Timestamps (fs w))) + 1)%Z;
  sub_Timestamps : Timestamps (fs w') = Timestamps (fs w) ++ [t];
  sub_Requests : Requests (fs w') = Requests (fs w) ++ [mkRequest clientID file t];
  sub_Files : Files (fs w') = Files (fs w);
  sub_LogFile : LogFile (fs w') = LogFile (fs w);
  sub_DeferredArray : DeferredArray (fs w') = DeferredArray (fs w);
  sub_heap : heap w' = heap w;
  sub_pool : goroutines w' ⊆
      goroutines w ++ (pair clientID <$> others clientID (Requests (fs w')));
  sub_history : ∃ evs,
      history w' = history w ++ (EvGo clientID <$> others clientID (Requests (fs w'))) ++ evs ∧
      gos evs = [] ∧
      length (polls evs) = length (others clientID (Requests (fs w')));
  sub_run : submit clientID file w = Ok (t, w');
}.

(** The world between the two loops of [submit]. *)
Definition broadcast_world (clientID : Z) (file : ptr) (w : World) : World :=
  let t := (Z.of_nat (length (Timestamps (fs w))) + 1)%Z in
  let rs := Requests (fs w) ++ [mkRequest clientID file t] in
  mkWorld (set_Requests (λ _, rs) (set_Timestamps (λ ts, ts ++ [t]) (fs w)))
    (heap w) (stdout w)
    (goroutines w ++ (pair clientID <$> others clientID rs))
    (sched w)
    (history w ++ (EvGo clientID <$> others clientID rs)).

(** A relation that only says that a property of worlds is kept. *)
Definition keeps (I : World → Prop) : World → World → Prop := λ w w', I w → I w'.

(** ** Closed forms of the four client operations *)

Definition open_failed (fileName err : string) (w : World) : World :=
  set_stdout (λ out, out ++ ["Error opening file " +:+ fileName +:+ ": " +:+ err +:+ nl]) w.

Definition opened_line (clientID : Z) (fileName : string) : string :=
  "Client " +:+ pretty clientID +:+ " opened file " +:+ fileName +:+ nl.

Definition open_created (clientID : Z) (fileName fileContent : string) (w : World) : World :=
  set_stdout (λ out, out ++ [opened_line clientID fileName])
    (set_fs (set_Files (λ m, <[fileName := length (heap w)]> m))
      (set_heap (λ h, h ++ [mkFile fileName true fileContent]) w)).

Definition open_again (clientID : Z) (fileName : string) (file : ptr) (f : File)
    (w : World) : World :=
  set_stdout (λ out, out ++ [opened_line clientID fileName])
    (set_heap (λ h, <[file := set_IsOpen true f]> h) w).

Definition closed (file : ptr) (f : File) (w : World) : World :=
  set_stdout (λ out, out ++ ["File " +:+ Name f +:+ " closed" +:+ nl])
    (set_heap (λ h, <[file := set_IsOpen false f]> h) w).

Definition read_line (clientID : Z) (f : File) : string :=
  "Client " +:+ pretty clientID +:+ " read file " +:+ Name f +:+ ": " +:+ Content f +:+ nl.

Definition log_entry (clientID : Z) (action fileName : string) (timestamp : Z) : string :=
  "Client " +:+ pretty clientID +:+ " " +:+ action +:+ " file " +:+ fileName
  +:+ " at timestamp " +:+ pretty timestamp +:+ nl.

Definition read_done (clientID : Z) (f : File) (t : Z) (w : World) : World :=
  set_fs (set_DeferredArray (λ d, d ++ ["Read by Client " +:+ pretty clientID]))
    (set_fs (set_LogFile (λ l, l ++ [log_entry clientID "Read" (Name f) t]))
      (set_stdout (λ out, out ++ [read_line clientID f]) w)).

Definition write_failed (file : ptr) (f : File) (content err : string) (w : World) : World :=
  set_stdout (λ out, out ++ ["Error writing to file " +:+ Name f +:+ ": " +:+ err +:+ nl])
    (set_heap (λ h, <[file := set_Content content f]> h) w).

Definition write_done (clientID : Z) (file : ptr) (f : File) (content : string) (t : Z)
    (w : World) : World :=
  set_fs (set_DeferredArray (λ d, d ++ ["Write by Client " +:+ pretty clientID]))
    (set_fs (set_LogFile (λ l, l ++ [log_entry clientID "Write" (Name f) t]))
      (set_stdout (λ out, out ++ ["Client " +:+ pretty clientID +:+ " wrote to file "
                                  +:+ Name f +:+ ": " +:+ content +:+ nl])
        (set_heap (λ h, <[file := set_Content content f]> h) w))).

(** ** Worlds used in examples *)

(** Three clients, one registered file, client 1 has written once; the
    scheduler will let the first pooled goroutine run at the next
    scheduling point. *)
Definition demo_world : World :=
  mkWorld
    (mkDFS {["file1.txt" := 0]} [mkRequest 1 0 1] [false; false; false] [1%Z]
       [log_entry 1 "Write" "file1.txt" 1] ["Write by Client 1"])
    [mkFile "file1.txt" true "Content written by Client 1"]
    [] [] [[0]] [].

(** ** The effect of one operation of a run *)

Inductive effect (w : World) : op → World → Prop :=
  | eff_open_failed clientID fileName err :
      Files (fs w) !! fileName = None →
      effect w (OpOpenFile clientID fileName (Failure err)) (open_failed fileName err w)
  | eff_open_created clientID fileName fileContent :
      Files (fs w) !! fileName = None →
      effect w (OpOpenFile clientID fileName (Success fileContent))
        (open_created clientID fileName fileContent w)
  | eff_open_again clientID fileName disk file f :
      Files (fs w) !! fileName = Some file →
      heap w !! file = Some f →
      effect w (OpOpenFile clientID fileName disk) (open_again clientID fileName file f w)
  | eff_close file f :
      heap w !! file = Some f →
      effect w (OpCloseFile file) (closed file f w)
  | eff_read clientID file t w1 f :
      submitted clientID file w t w1 →
      heap w1 !! file = Some f →
      effect w (OpReadFile clientID file) (read_done clientID f t w1)
  | eff_write_failed clientID file content err t w1 f :
      submitted clientID file w t w1 →
      heap w1 !! file = Some f →
      effect w (OpWriteFile clientID file content (Some err))
        (write_failed file f content err w1)
  | eff_write_done clientID file content t w1 f :
      submitted clientID file w t w1 →
      heap w1 !! file = Some f →
      effect w (OpWriteFile clientID file content None)
        (write_done clientID file f content t w1)
  | eff_sched w' :
      background w w' →
      effect w OpGosched w'.

(** ** C3: logical timestamps *)

(** The operations that take a timestamp. *)
Definition is_access (o : op) : bool :=
  match o with
  | OpReadFile _ _ | OpWriteFile _ _ _ _ => true
  | _ => false
  end.

Definition accesses (ops : list op) : nat := length (List.filter is_access ops).

(** The timestamps handed out so far are 1, 2, ... without gap, and the
    ledger carries them in the same order. *)
Definition clock_ok (w : World) : Prop :=
  Timestamps (fs w) = seqZ 1 (Z.of_nat (length (Timestamps (fs w)))) ∧
  Timestamp <$> Requests (fs w) = Timestamps (fs w).

(** A run of two clients on one file: both open it, client 1 writes,
    the save of client 2 fails, a spawned goroutine runs, client 1 reads
    and closes. *)
Definition demo_ops : list op :=
  [OpOpenFile 1 "file1.txt" (Success "old");
   OpWriteFile 1 0 "a" None;
   OpOpenFile 2 "file1.txt" (Success "old");
   OpWriteFile 2 0 "b" (Some "disk full");
   OpGosched;
   OpReadFile 1 0;
   OpCloseFile 0].

(** ** C1: the last writer wins *)

(** The content an operation writes to [file], if it is a write to it. *)
Definition written (file : ptr) (o : op) : option string :=
  match o with
  | OpWriteFile _ file' content _ => if decide (file' = file) then Some content else None
  | _ => None
  end.

(** The content of the last write to [file] in a run. *)
Fixpoint last_write (file : ptr) (ops : list op) : option string :=
  match ops with
  | [] => None
  | o :: ops' =>
      match last_write file ops' with
      | Some content => Some content
      | None => written file o
      end
  end.

(** Whether a save in the run fails. *)
Definition save_fails (o : op) : bool :=
  match o with
  | OpWriteFile _ _ _ (Some _) => true
  | _ => false
  end.

Definition demo_writes : list op :=
  [OpWriteFile 2 0 "b" None; OpReadFile 3 0; OpWriteFile 3 0 "c" None].

(** ** C5: a failed save, and the number of audit entries *)

(** The operations that run to their last statement: every read, and
    every write whose save succeeds. *)
Definition completes (o : op) : bool :=
  match o with
  | OpReadFile _ _ | OpWriteFile _ _ _ None => true
  | _ => false
  end.

Definition completed (ops : list op) : nat := length (List.filter completes ops).

Definition demo_prefix : list op :=
  [OpOpenFile 1 "file1.txt" (Success "old");
   OpWriteFile 1 0 "a" None;
   OpOpenFile 2 "file1.txt" (Success "old")].

(** ** C8: one [File] object per name *)

(** The [Files] map is exactly the inverse of the list of names of the
    [File] objects allocated so far: every registered name points to an
    object of that name, and every object is the one registered under its
    name.  In particular no two objects have the same name. *)
Definition registry_ok (w : World) : Prop :=
  ∀ name file, Files (fs w) !! name = Some file ↔ (Name <$> heap w) !! file = Some name.

(** ** Executions of [main] are runs *)

(** The operations [main] performs when it starts [n] clients: their ids
    range over 1..n. *)
Definition main_op (n : nat) (o : op) : Prop :=
  match o with
  | OpOpenFile c _ _ | OpReadFile c _ | OpWriteFile c _ _ _ => (1 ≤ c ≤ Z.of_nat n)%Z
  | OpCloseFile _ | OpGosched => True
  end.

(** ** C10: slot 0 of the acknowledgment slice *)

(** What the history may contain when all client ids are positive: no
    [go] statement and no executed [SendRequest] for a request of a client
    below 1, and no [ReceiveAcknowledge] that reached its reset. *)
Definition ok_event (e : event) : Prop :=
  match e with
  | EvGo _ r | EvSendRequest _ r => (1 ≤ ClientID r)%Z
  | EvReceiveAcknowledge full => full = false
  end.

Record gate_inv (n : nat) (w : World) : Prop := mkGateInv {
  gi_length : length (Acknowledged (fs w)) = n;
  gi_slot0 : 0 < n → Acknowledged (fs w) !! 0 = Some false;
  gi_requests : ∀ r, r ∈ Requests (fs w) → (1 ≤ ClientID r)%Z;
  gi_pool : ∀ c r, (c, r) ∈ goroutines w → (1 ≤ ClientID r)%Z;
  gi_history : ∀ e, e ∈ history w → ok_event e;
}.

(** An execution of [main] with three clients, in which two spawned
    goroutines run while client 3 is writing. *)
Definition demo_turns : list turn :=
  [Step 0 (Success "old") None; Step 1 (Success "old") None;
   Step 0 (Success "old") None; Step 1 (Success "old") None;
   Step 2 (Success "old") None; Step 2 (Success "old") None;
   Background;
   Step 0 (Success "old") None; Step 1 (Success "old") None;
   Step 2 (Success "old") None; Step 0 (Success "old") None;
   Step 1 (Success "old") None; Step 2 (Success "old") None].

Definition demo_sched : list (list nat) := [[]; [0]; []; [0; 0]].

(** ** [main] does not panic *)

(** The pooled calls are for requests of clients with non-negative ids. *)
Definition pool_nonneg (w : World) : Prop :=
  ∀ c r, (c, r) ∈ goroutines w → (0 ≤ ClientID r)%Z.



(** ** Further properties of the program *)

(** The pooled calls and the requests of other clients than [clientID]
    have non-negative client ids: what [ReadFile] and [WriteFile] of
    [clientID] need in order not to meet a negative index. *)
Definition notifiable (clientID : Z) (w : World) : Prop :=
  pool_nonneg w ∧
  ∀ r, r ∈ Requests (fs w) → ClientID r ≠ clientID → (0 ≤ ClientID r)%Z.

(** How the acknowledgment slice can evolve: the ledger only grows; the
    slice keeps its length or has the length the ledger had at a reset;
    and as long as no call of [ReceiveAcknowledge] resets it, it keeps its
    length and every slot that is [true] stays [true]. *)
Record gate_step (w w' : World) : Prop := mkGateStep {
  gs_requests : Requests (fs w) `prefix_of` Requests (fs w');
  gs_length : length (Acknowledged (fs w')) = length (Acknowledged (fs w)) ∨
              length (Acknowledged (fs w')) ≤ length (Requests (fs w'));
  gs_history : ∃ evs, history w' = history w ++ evs ∧
      (Forall (λ full, full = false) (polls evs) →
       length (Acknowledged (fs w')) = length (Acknowledged (fs w)) ∧
       ∀ i, Acknowledged (fs w) !! i = Some true → Acknowledged (fs w') !! i = Some true);
}.

(** The client and the file of a read or write. *)
Definition access_of (o : op) : option (Z * ptr) :=
  match o with
  | OpReadFile c file | OpWriteFile c file _ _ => Some (c, file)
  | _ => None
  end.

(** The label a read or a saved write leaves in the deferred array. *)
Definition label_of (o : op) : option string :=
  match o with
  | OpReadFile c _ => Some ("Read by Client " +:+ pretty c)
  | OpWriteFile c _ _ None => Some ("Write by Client " +:+ pretty c)
  | _ => None
  end.

(** The lines a run appends to the log file, read off the operations:
    [h] gives the names of the files and [k] timestamps were taken before
    the run. *)
Fixpoint log_lines (h : list File) (k : nat) (ops : list op) : list string :=
  match ops with
  | [] => []
  | OpReadFile c file :: ops' =>
      match h !! file with
      | Some f => [log_entry c "Read" (Name f) (Z.of_nat k + 1)]
      | None => []
      end ++ log_lines h (S k) ops'
  | OpWriteFile c file _ disk :: ops' =>
      match disk, h !! file with
      | None, Some f => [log_entry c "Write" (Name f) (Z.of_nat k + 1)]
      | _, _ => []
      end ++ log_lines h (S k) ops'
  | _ :: ops' => log_lines h k ops'
  end.

(** The world [main] starts from with three clients and a scheduler that
    lets the first spawned goroutine run at the second scheduling point. *)
Definition demo_start : World :=
  mkWorld (mkDFS ∅ [] [false; false; false] [] [] []) [] [] [] [[]; [0]] [].

(** The file a client of [main] holds, if it holds one. *)
Definition handle (at_ : pc) : option ptr :=
  match at_ with
  | AtWriteFile file | AtReadFile file | AtCloseFile file => Some file
  | AtOpenFile | Returned => None
  end.

(** All clients of [main] work on one name: the [Files] map has no other
    key, and every pointer held by a client or recorded in the ledger is
    the one registered for it. *)
Record shared_file (pcs : list pc) (w : World) : Prop := mkSharedFile {
  sf_registry : registry_ok w;
  sf_keys : ∀ name file, Files (fs w) !! name = Some file → name = "file1.txt";
  sf_handles : ∀ i at_ file, pcs !! i = Some at_ → handle at_ = Some file →
      Files (fs w) !! "file1.txt" = Some file;
  sf_requests : ∀ r, r ∈ Requests (fs w) → Files (fs w) !! "file1.txt" = Some (ReqFile r);
}.

(** The number of timestamps a client has taken when it is at [at_],
    provided its [OpenFile] did not fail; and the number it can still
    take. *)
Definition taken (at_ : pc) : nat :=
  match at_ with
  | AtOpenFile | AtWriteFile _ => 0
  | AtReadFile _ => 1
  | AtCloseFile _ | Returned => 2
  end.

Definition budget (at_ : pc) : nat :=
  match at_ with
  | AtOpenFile | AtWriteFile _ => 2
  | AtReadFile _ => 1
  | AtCloseFile _ | Returned => 0
  end.

(** A turn in which the storage does not fail. *)
Definition turn_ok (t : turn) : Prop :=
  match t with
  | Step _ (Success _) None | Background => True
  | Step _ _ _ => False
  end.

(** The lines of the final report for the labels [ops], numbered from
    [i + 1]. *)
Definition report_lines (i : Z) (ops : list string) : list string :=
  imap (λ k operation, pretty (i + Z.of_nat k + 1)%Z +:+ ". " +:+ operation +:+ nl) ops.

(** The characters of a string. *)
Fixpoint chars (s : string) : list Ascii.ascii :=
  match s with
  | EmptyString => []
  | String a s' => a :: chars s'
  end.

(** The two characters of the diagram line. *)
Definition space : Ascii.ascii := Ascii.ascii_of_nat 32.
Definition dash : Ascii.ascii := Ascii.ascii_of_nat 45.

(** No pending call and no request of the ledger is for a negative client
    id. *)
Definition ids_nonneg (w : World) : Prop :=
  pool_nonneg w ∧ ∀ r, r ∈ Requests (fs w) → (0 ≤ ClientID r)%Z.

(** An operation whose client id is not negative and whose file, if it
    takes one, is among the first [n] allocated objects. *)
Definition op_ok (n : nat) (o : op) : Prop :=
  match o with
  | OpOpenFile _ _ _ | OpGosched => True
  | OpCloseFile file => file < n
  | OpReadFile c file | OpWriteFile c file _ _ => (0 ≤ c)%Z ∧ file < n
  end.

(** * Properties *)

(** ** Reasoning about computations *)

Lemma bind_Ok {A B} (m : M A) (k : A → M B) w b w' :
  bind m k w = Ok (b, w') ↔ ∃ a w1, m w = Ok (a, w1) ∧ k a w1 = Ok (b, w').
Proof.
  unfold bind. split.
  - destruct (m w) as [[a w1]|e]; [eauto | discriminate].
  - intros (a & w1 & -> & Hk). exact Hk.
Qed.

Lemma bind_Panic {A B} (m : M A) (k : A → M B) w e :
  m w = Panic e → bind m k w = Panic e.
Proof. unfold bind. intros ->. reflexivity. Qed.

Lemma for_range_app {A} (xs ys : list A) (body : A → M unit) w :
  for_range (xs ++ ys) body w = (for_range xs body ;; for_range ys body) w.
Proof.
  revert w. induction xs as [|x xs IH]; intros w; simpl.
  - reflexivity.
  - unfold bind in *. destruct (body x w) as [[[] w1]|e]; [apply IH | reflexivity].
Qed.

Section preserves.
Context (R : World → World → Prop) `{!Reflexive R, !Transitive R}.

Lemma preserves_ret {A} (a : A) : preserves R (ret a).
Proof. intros w a' w' [= _ <-]. reflexivity. Qed.

Lemma preserves_gets {A} (g : World → A) : preserves R (gets g).
Proof. intros w a' w' [= _ <-]. reflexivity. Qed.

Lemma preserves_bind {A B} (m : M A) (k : A → M B) :
  preserves R m → (∀ a, preserves R (k a)) → preserves R (bind m k).
Proof.
  intros Hm Hk w b w' (a & w1 & H1 & H2)%bind_Ok.
  transitivity w1; [eapply Hm | eapply Hk]; eassumption.
Qed.

Lemma preserves_for_range {A} (xs : list A) (body : A → M unit) :
  (∀ x, x ∈ xs → preserves R (body x)) → preserves R (for_range xs body).
Proof.
  induction xs as [|x xs IH]; intros Hbody; simpl.
  - apply preserves_ret.
  - apply preserves_bind.
    + apply Hbody. left.
    + intros _. apply IH. intros y Hy. apply Hbody. by right.
Qed.

Lemma preserves_if {A} (b : bool) (m1 m2 : M A) :
  preserves R m1 → preserves R m2 → preserves R (if b then m1 else m2).
Proof. by destruct b. Qed.
End preserves.

(** ** The acknowledgment slice *)

Lemma all_true_spec (acks : list bool) :
  all_true acks = true ↔ ∀ i, i < length acks → acks !! i = Some true.
Proof.
  induction acks as [|b acks IH]; simpl.
  - split; [intros _ i Hi; lia | done].
  - destruct b; simpl.
    + rewrite IH. split.
      * intros H [|i] Hi; [done | apply H; lia].
      * intros H i Hi. apply (H (S i)). lia.
    + split; [done | intros H]. specialize (H 0 ltac:(lia)). discriminate.
Qed.

Lemma all_true_false (acks : list bool) :
  all_true acks = false ↔ ∃ i, acks !! i = Some false.
Proof.
  induction acks as [|b acks IH]; simpl.
  - split; [done | intros [i Hi]; discriminate].
  - destruct b; simpl.
    + rewrite IH. split.
      * intros [i Hi]. by exists (S i).
      * intros [[|i] Hi]; [discriminate | by exists i].
    + split; [by exists 0 | done].
Qed.

Lemma ReceiveAcknowledge_eq w :
  ReceiveAcknowledge w =
    if all_true (Acknowledged (fs w)) then Ok (true, reset_world w)
    else Ok (false, set_history (λ h, h ++ [EvReceiveAcknowledge false]) w).
Proof.
  unfold ReceiveAcknowledge, bind, gets. simpl.
  destruct (all_true (Acknowledged (fs w))); reflexivity.
Qed.

(** C2.  [ReceiveAcknowledge] always returns.  It takes its second exit
    (reported as [true]) exactly when every slot below the current length
    of [Acknowledged] is [true]; then, and only then, [Acknowledged] becomes
    a slice of [false] whose length is the current length of [Requests].
    When some slot is [false] it takes the first exit and [Acknowledged]
    keeps its length and contents.  [Requests] is not changed. *)
Theorem ReceiveAcknowledge_spec (w : World) :
  ∃ b w', ReceiveAcknowledge w = Ok (b, w') ∧
    (b = true ↔
       ∀ i, i < length (Acknowledged (fs w)) → Acknowledged (fs w) !! i = Some true) ∧
    (b = false ↔ ∃ i, Acknowledged (fs w) !! i = Some false) ∧
    (b = true →
       Acknowledged (fs w') = replicate (length (Requests (fs w))) false ∧
       length (Acknowledged (fs w')) = length (Requests (fs w'))) ∧
    (b = false → Acknowledged (fs w') = Acknowledged (fs w)) ∧
    Requests (fs w') = Requests (fs w).
Proof.
  rewrite ReceiveAcknowledge_eq.
  destruct (all_true (Acknowledged (fs w))) eqn:Hall.
  - exists true, (reset_world w). split; [done|].
    split; [by rewrite <- all_true_spec|].
    split.
    { split; [done|]. intros Hex%all_true_false. congruence. }
    split; [|done]. intros _. simpl. by rewrite length_replicate.
  - exists false, (set_history (λ h, h ++ [EvReceiveAcknowledge false]) w).
    split; [done|].
    split.
    { split; [done|]. intros Hi%all_true_spec. congruence. }
    split; [by rewrite <- all_true_false|]. done.
Qed.

Lemma SendRequest_in_bounds clientID request w :
  (0 ≤ ClientID request < Z.of_nat (length (Acknowledged (fs w))))%Z →
  SendRequest clientID request w =
    Ok (tt, set_fs (set_Acknowledged (λ _,
              <[Z.to_nat (ClientID request) := true]> (Acknowledged (fs w))))
            (announced clientID request w)).
Proof.
  intros Hin. unfold SendRequest, bind, record, Printf, modify, gets, slice_store. simpl.
  rewrite bool_decide_eq_true_2 by lia.
  rewrite bool_decide_eq_true_2 by lia. reflexivity.
Qed.

Lemma SendRequest_beyond clientID request w :
  (Z.of_nat (length (Acknowledged (fs w))) ≤ ClientID request)%Z →
  SendRequest clientID request w =
    Ok (tt, set_stdout (λ out, out ++ ["Invalid client ID in SendRequest......" +:+ nl])
              (announced clientID request w)).
Proof.
  intros Hout. unfold SendRequest, bind, record, Printf, modify, gets. simpl.
  rewrite bool_decide_eq_false_2 by lia. reflexivity.
Qed.

Lemma SendRequest_negative clientID request w :
  (ClientID request < 0)%Z →
  SendRequest clientID request w =
    Panic (IndexOutOfRange (ClientID request) (length (Acknowledged (fs w)))).
Proof.
  intros Hneg. unfold SendRequest, bind, record, Printf, modify, gets, slice_store. simpl.
  rewrite bool_decide_eq_true_2 by lia.
  rewrite bool_decide_eq_false_2 by lia. reflexivity.
Qed.

Global Instance background_refl : Reflexive background.
Proof.
  intros w. split; try done.
  - by left.
  - exists []. by rewrite app_nil_r.
Qed.

Global Instance background_trans : Transitive background.
Proof.
  intros w1 w2 w3 [] []. split; try congruence.
  - by etrans.
  - intros i Hi. destruct (bg_slot1 i Hi) as [H2|(c & r & Hin & Hr)].
    + by apply bg_slot0.
    + right. exists c, r. split; [by apply bg_pool0 | done].
  - destruct bg_history0 as (e1 & E1 & F1). destruct bg_history1 as (e2 & E2 & F2).
    exists (e1 ++ e2). split; [by rewrite E2, E1, app_assoc|].
    apply Forall_app. split; [done|].
    eapply Forall_impl; [exact F2|]. intros e (c & r & -> & Hin).
    exists c, r. split; [done | by apply bg_pool0].
Qed.

Lemma run_goroutine_background k : preserves background (run_goroutine k).
Proof.
  intros w [] w'. unfold run_goroutine.
  destruct (goroutines w !! k) as [[c r]|] eqn:Hk; [|intros [= <-]; reflexivity].
  assert (Hin : (c, r) ∈ goroutines w) by (by eapply list_elem_of_lookup_2).
  assert (Hsub : delete k (goroutines w) ⊆ goroutines w)
    by apply sublist_subseteq, sublist_delete.
  set (w0 := set_goroutines (delete k) w).
  destruct (decide (ClientID r < 0)%Z) as [Hneg|Hnn].
  { by rewrite SendRequest_negative. }
  destruct (decide (ClientID r < Z.of_nat (length (Acknowledged (fs w0))))%Z) as [Hlt|Hge].
  - rewrite SendRequest_in_bounds by lia. intros [= <-].
    split; simpl; try done.
    + by rewrite length_insert.
    + intros i [(Hi & _ & _)|(_ & Hi)]%list_lookup_insert_Some; [|by left].
      right. exists c, r. split; [done | lia].
    + exists [EvSendRequest c r]. split; [done|].
      apply Forall_singleton. by exists c, r.
  - rewrite SendRequest_beyond by lia. intros [= <-].
    split; simpl; try done.
    + by left.
    + exists [EvSendRequest c r]. split; [done|].
      apply Forall_singleton. by exists c, r.
Qed.

Lemma Gosched_background : preserves background Gosched.
Proof.
  intros w [] w'. unfold Gosched.
  destruct (sched w) as [|ks rest]; [intros [= <-]; reflexivity|].
  intros Hrun.
  apply (preserves_for_range background) in Hrun.
  - destruct Hrun. split; done.
  - intros k _. apply run_goroutine_background.
Qed.

(** ** The common part of [ReadFile] and [WriteFile] *)

Lemma gos_app evs1 evs2 : gos (evs1 ++ evs2) = gos evs1 ++ gos evs2.
Proof. apply omap_app. Qed.

Lemma polls_app evs1 evs2 : polls (evs1 ++ evs2) = polls evs1 ++ polls evs2.
Proof. apply omap_app. Qed.


Lemma polls_EvGo clientID rs : polls (EvGo clientID <$> rs) = [].
Proof. induction rs as [|r rs IH]; simpl; done. Qed.

Lemma sends_no_gos_polls (P : Z → Request → Prop) evs :
  Forall (λ e, ∃ c r, e = EvSendRequest c r ∧ P c r) evs → gos evs = [] ∧ polls evs = [].
Proof.
  induction 1 as [|e evs (c & r & -> & _) _ [IH1 IH2]]; [done|]. simpl. done.
Qed.

(** The first loop: one [go] statement per request of another client. *)
Lemma go_loop clientID rs w :
  for_range rs (λ r,
      if bool_decide (ClientID r ≠ clientID) then go clientID r else ret tt) w
  = Ok (tt, mkWorld (fs w) (heap w) (stdout w)
              (goroutines w ++ (pair clientID <$> others clientID rs))
              (sched w)
              (history w ++ (EvGo clientID <$> others clientID rs))).
Proof.
  revert w. induction rs as [|r rs IH]; intros w.
  - simpl. unfold ret. rewrite !app_nil_r. by destruct w.
  - simpl. unfold others. rewrite filter_cons.
    destruct (decide (ClientID r ≠ clientID)) as [Hne|Heq].
    + rewrite bool_decide_eq_true_2 by done.
      unfold bind at 1. unfold go, record, modify, bind at 1. simpl.
      rewrite IH. simpl. unfold others. by rewrite <- !app_assoc.
    + rewrite bool_decide_eq_false_2 by done.
      unfold bind at 1. unfold ret at 1. rewrite IH. done.
Qed.

Global Instance quiet_refl : Reflexive quiet.
Proof. intros w. by split. Qed.

Global Instance quiet_trans : Transitive quiet.
Proof. intros w1 w2 w3 [] []. split; try congruence. by etrans. Qed.

Lemma background_quiet w w' : background w w' → quiet w w'.
Proof. intros []. by split. Qed.

Lemma Gosched_quiet : preserves quiet Gosched.
Proof. intros w a w' H. by eapply background_quiet, Gosched_background. Qed.

Lemma ReceiveAcknowledge_quiet : preserves quiet ReceiveAcknowledge.
Proof.
  intros w b w'. rewrite ReceiveAcknowledge_eq.
  destruct (all_true _); intros [= _ <-]; by split.
Qed.

Lemma poll_body_quiet clientID r : preserves quiet (poll_body clientID r).
Proof.
  unfold poll_body. apply preserves_if; [|apply preserves_ret; apply _].
  apply preserves_bind; [apply _ | apply Gosched_quiet | intros _].
  apply preserves_bind; [apply _ | apply ReceiveAcknowledge_quiet | intros _].
  apply preserves_ret; apply _.
Qed.

(** The second loop: one call of [ReceiveAcknowledge] per request of
    another client, and no [go] statement. *)
Lemma poll_loop_history clientID rs w w' :
  for_range rs (poll_body clientID) w = Ok (tt, w') →
  ∃ evs, history w' = history w ++ evs ∧ gos evs = [] ∧
         length (polls evs) = length (others clientID rs).
Proof.
  revert w. induction rs as [|r rs IH]; intros w; simpl.
  - intros [= <-]. exists []. by rewrite app_nil_r.
  - intros ([] & w1 & Hbody & Hrest)%bind_Ok.
    apply IH in Hrest as (evs & Hh & Hg & Hp).
    unfold others. rewrite filter_cons. unfold poll_body in Hbody.
    destruct (decide (ClientID r ≠ clientID)) as [Hne|Heq].
    + rewrite bool_decide_eq_true_2 in Hbody by done.
      apply bind_Ok in Hbody as ([] & w2 & Hsched & Hbody).
      apply bind_Ok in Hbody as (b & w3 & Hpoll & [= <-]).
      apply Gosched_background in Hsched as [_ _ _ _ _ _ _ _ _ (e1 & He1 & F1)].
      apply sends_no_gos_polls in F1 as [G1 P1].
      rewrite ReceiveAcknowledge_eq in Hpoll.
      exists (e1 ++ [EvReceiveAcknowledge b] ++ evs).
      rewrite !gos_app, !polls_app, G1, P1, Hg. simpl. rewrite Hp.
      split; [|done]. rewrite Hh.
      destruct (all_true _); injection Hpoll as <- <-; simpl;
        rewrite He1; by rewrite <- !app_assoc.
    + rewrite bool_decide_eq_false_2 in Hbody by done.
      injection Hbody as <-. by exists evs.
Qed.

Lemma submit_unfold clientID file w t w' :
  submit clientID file w = Ok (t, w') ↔
  t = (Z.of_nat (length (Timestamps (fs w))) + 1)%Z ∧
  for_range (Requests (fs (broadcast_world clientID file w))) (poll_body clientID)
    (broadcast_world clientID file w) = Ok (tt, w').
Proof.
  unfold submit.
  unfold bind at 1, gets at 1. unfold bind at 1, modify_fs at 1, modify at 1.
  unfold bind at 1, modify_fs at 1, modify at 1.
  unfold bind at 1, gets at 1.
  unfold bind at 1. rewrite go_loop.
  unfold bind at 1, gets at 1. rewrite bind_Ok.
  split.
  - intros ([] & w2 & Hloop & [= <- <-]). split; [done|]. exact Hloop.
  - intros [-> Hloop]. exists tt, w'. split; [exact Hloop | done].
Qed.

Lemma submit_spec clientID file w t w' :
  submit clientID file w = Ok (t, w') → submitted clientID file w t w'.
Proof.
  intros Hsubmit. pose proof Hsubmit as [-> Hloop]%submit_unfold.
  set (t0 := (Z.of_nat (length (Timestamps (fs w))) + 1)%Z) in *.
  pose proof (preserves_for_range quiet _ (poll_body clientID)
                (λ r _, poll_body_quiet clientID r) _ _ _ Hloop) as [].
  apply poll_loop_history in Hloop as (evs & Hh & Hg & Hp).
  simpl in *.
  split; try done.
  - by rewrite q_Requests0.
  - exists evs. rewrite q_Requests0. split; [by rewrite Hh, <- app_assoc | done].
Qed.

Global Instance keeps_refl I : Reflexive (keeps I).
Proof. intros w H. exact H. Qed.

Global Instance keeps_trans I : Transitive (keeps I).
Proof. intros w1 w2 w3 H12 H23 H1. by apply H23, H12. Qed.

(** ** Closed forms of the four client operations *)

Lemma OpenFile_failure clientID fileName err w :
  Files (fs w) !! fileName = None →
  OpenFile clientID fileName (Failure err) w = Ok (None, open_failed fileName err w).
Proof. intros H. unfold OpenFile, bind, gets. simpl. rewrite H. reflexivity. Qed.

Lemma OpenFile_created clientID fileName fileContent w :
  Files (fs w) !! fileName = None →
  OpenFile clientID fileName (Success fileContent) w =
    Ok (Some (length (heap w)), open_created clientID fileName fileContent w).
Proof. intros H. unfold OpenFile, bind, gets. simpl. rewrite H. reflexivity. Qed.

Lemma OpenFile_again clientID fileName disk file f w :
  Files (fs w) !! fileName = Some file →
  heap w !! file = Some f →
  OpenFile clientID fileName disk w = Ok (Some file, open_again clientID fileName file f w).
Proof.
  intros H Hf. unfold OpenFile, bind, gets, store. simpl. rewrite H, Hf. reflexivity.
Qed.

Lemma OpenFile_dangling clientID fileName disk file w :
  Files (fs w) !! fileName = Some file →
  heap w !! file = None →
  OpenFile clientID fileName disk w = Panic (NilDereference file).
Proof.
  intros H Hf. unfold OpenFile, bind, gets, store. simpl. rewrite H, Hf. reflexivity.
Qed.

Lemma CloseFile_eq file w :
  CloseFile file w =
    match heap w !! file with
    | Some f => Ok (tt, closed file f w)
    | None => Panic (NilDereference file)
    end.
Proof.
  unfold CloseFile, bind, store, load, Printf, modify.
  destruct (heap w !! file) as [f|] eqn:Hf; [|done]. simpl.
  rewrite list_lookup_insert_eq by (by eapply lookup_lt_Some). reflexivity.
Qed.

Lemma ReadFile_spec clientID file w w' :
  ReadFile clientID file w = Ok (tt, w') →
  ∃ t w1 f, submitted clientID file w t w1 ∧ heap w1 !! file = Some f ∧
            w' = read_done clientID f t w1.
Proof.
  unfold ReadFile. intros (t & w1 & Hsub & Hrest)%bind_Ok.
  apply submit_spec in Hsub. exists t, w1.
  unfold bind, load in Hrest. destruct (heap w1 !! file) as [f|] eqn:Hf; [|done].
  exists f. split; [done|]. split; [done|].
  unfold Printf, LogRequest, AddDeferredOperation, modify_fs, modify in Hrest.
  by injection Hrest as <-.
Qed.

Lemma WriteFile_spec clientID file content disk w w' :
  WriteFile clientID file content disk w = Ok (tt, w') →
  ∃ t w1 f, submitted clientID file w t w1 ∧ heap w1 !! file = Some f ∧
            w' = match disk with
                 | Some err => write_failed file f content err w1
                 | None => write_done clientID file f content t w1
                 end.
Proof.
  unfold WriteFile. intros (t & w1 & Hsub & Hrest)%bind_Ok.
  apply submit_spec in Hsub. exists t, w1.
  unfold bind at 1, store in Hrest. destruct (heap w1 !! file) as [f|] eqn:Hf; [|done].
  exists f. split; [done|]. split; [done|].
  unfold bind at 1, load in Hrest. simpl in Hrest.
  rewrite list_lookup_insert_eq in Hrest by (by eapply lookup_lt_Some).
  destruct disk as [err|].
  - unfold Printf, modify in Hrest. by injection Hrest as <-.
  - unfold bind, Printf, LogRequest, AddDeferredOperation, modify_fs, modify in Hrest.
    by injection Hrest as <-.
Qed.

(** ** C7: what every read and write does to the ledger and the gate *)



(** ** C9: a read leaves the files alone *)



(** ** The effect of one operation of a run *)

Lemma OpenFile_inv clientID fileName disk w r w' :
  OpenFile clientID fileName disk w = Ok (r, w') →
  effect w (OpOpenFile clientID fileName disk) w' ∧
  r = match Files (fs w) !! fileName with
      | Some file => Some file
      | None => match disk with
                | Success _ => Some (length (heap w))
                | Failure _ => None
                end
      end.
Proof.
  destruct (Files (fs w) !! fileName) as [file|] eqn:HF.
  - destruct (heap w !! file) as [f|] eqn:Hf.
    + rewrite (OpenFile_again _ _ _ _ _ _ HF Hf). intros [= <- <-].
      split; [by eapply eff_open_again | done].
    + by rewrite (OpenFile_dangling _ _ _ _ _ HF Hf).
  - destruct disk as [fileContent|err].
    + rewrite (OpenFile_created _ _ _ _ HF). intros [= <- <-].
      split; [by apply eff_open_created | done].
    + rewrite (OpenFile_failure _ _ _ _ HF). intros [= <- <-].
      split; [by apply eff_open_failed | done].
Qed.

Lemma exec_inv o w w' : exec o w = Ok (tt, w') → effect w o w'.
Proof.
  destruct o as [clientID fileName disk|file|clientID file|clientID file content disk|]; simpl.
  - intros (r & w1 & Hopen & [= <-])%bind_Ok. by apply OpenFile_inv in Hopen as [? _].
  - rewrite CloseFile_eq. destruct (heap w !! file) as [f|] eqn:Hf; [|done].
    intros [= <-]. by apply eff_close.
  - intros (t & w1 & f & Hsub & Hf & ->)%ReadFile_spec. by eapply eff_read.
  - intros (t & w1 & f & Hsub & Hf & ->)%WriteFile_spec.
    destruct disk; [by eapply eff_write_failed | by eapply eff_write_done].
  - intros H. apply eff_sched. by eapply Gosched_background.
Qed.

(** Induction over a run, one operation at a time. *)
Lemma run_ind_effect (R : list op → World → World → Prop) :
  (∀ w, R [] w w) →
  (∀ o ops w w1 w', effect w o w1 → run ops w1 = Ok (tt, w') → R ops w1 w' → R (o :: ops) w w') →
  ∀ ops w w', run ops w = Ok (tt, w') → R ops w w'.
Proof.
  intros Hnil Hcons. induction ops as [|o ops IH]; intros w w'.
  - intros [= <-]. apply Hnil.
  - unfold run. simpl. intros ([] & w1 & Ho & Hrest)%bind_Ok.
    eapply Hcons; [by apply exec_inv | exact Hrest | by apply IH].
Qed.

Lemma run_app ops1 ops2 w w' :
  run (ops1 ++ ops2) w = Ok (tt, w') ↔
  ∃ w1, run ops1 w = Ok (tt, w1) ∧ run ops2 w1 = Ok (tt, w').
Proof.
  unfold run. rewrite for_range_app, bind_Ok. split.
  - intros ([] & w1 & ? & ?). eauto.
  - intros (w1 & ? & ?). exists tt, w1. done.
Qed.

(** ** C3: logical timestamps *)

Lemma submitted_clock clientID file w t w' :
  submitted clientID file w t w' → clock_ok w →
  clock_ok w' ∧ length (Timestamps (fs w')) = S (length (Timestamps (fs w))).
Proof.
  intros [] [Hseq Hreq]. unfold clock_ok.
  rewrite sub_Timestamps0, sub_Requests0, fmap_app, Hreq, length_app. simpl.
  rewrite Nat.add_1_r. split; [|done]. split; [|done].
  rewrite seqZ_S, <- Hseq. subst t. by rewrite Z.add_comm.
Qed.

Lemma effect_clock w o w' :
  effect w o w' → clock_ok w →
  clock_ok w' ∧
  length (Timestamps (fs w')) =
    length (Timestamps (fs w)) + (if is_access o then 1 else 0).
Proof.
  destruct 1 as [| | | |? ? ? ? ? Hsub|? ? ? ? ? ? ? Hsub|? ? ? ? ? ? Hsub|? [] ]; simpl;
    try (intros; split; [done | lia]).
  1-3: intros Hok; destruct (submitted_clock _ _ _ _ _ Hsub Hok) as [Hok' Hlen];
       (split; [exact Hok' | lia]).
  intros [Hseq Hreq]. unfold clock_ok.
  rewrite bg_Timestamps0, bg_Requests0. split; [done | lia].
Qed.

Lemma run_clock ops w w' :
  run ops w = Ok (tt, w') → clock_ok w →
  clock_ok w' ∧ length (Timestamps (fs w')) = length (Timestamps (fs w)) + accesses ops.
Proof.
  revert ops w w'. apply (run_ind_effect (λ ops w w', clock_ok w →
    clock_ok w' ∧ length (Timestamps (fs w')) = length (Timestamps (fs w)) + accesses ops)).
  - intros w Hok. unfold accesses. simpl. split; [done | lia].
  - intros o ops w w1 w' Heff _ IH Hok.
    destruct (effect_clock _ _ _ Heff Hok) as [Hok1 Hlen1].
    destruct (IH Hok1) as [Hok' Hlen']. split; [done|].
    unfold accesses in *. simpl. destruct (is_access o); simpl; lia.
Qed.

Lemma start_inv numClients sch w :
  start numClients sch = Ok w →
  (0 ≤ numClients)%Z ∧
  w = mkWorld (mkDFS ∅ [] (replicate (Z.to_nat numClients) false) [] [] []) [] [] [] sch [].
Proof.
  unfold start, make_bools. case_bool_decide; [|done]. by intros [= <-].
Qed.

(** C3.  In every run of the program the timestamps taken by the reads
    and writes, in the order in which they were taken, are 1, 2, ..., N
    where N is the number of reads and writes; the requests in the ledger
    carry exactly these values in this order.  Hence the timestamps are
    pairwise distinct and strictly increasing. *)
Theorem timestamps_contiguous numClients sch ops w0 w :
  start numClients sch = Ok w0 →
  run ops w0 = Ok (tt, w) →
  Timestamps (fs w) = seqZ 1 (Z.of_nat (accesses ops)) ∧
  Timestamp <$> Requests (fs w) = seqZ 1 (Z.of_nat (accesses ops)) ∧
  NoDup (Timestamps (fs w)) ∧
  (∀ i j ti tj, i < j →
     Timestamps (fs w) !! i = Some ti → Timestamps (fs w) !! j = Some tj →
     (0 < ti < tj)%Z).
Proof.
  intros [_ ->]%start_inv Hrun.
  apply run_clock in Hrun as [[Hseq Hreq] Hlen]; [|done].
  simpl in Hlen. rewrite Hlen in Hseq. rewrite Hreq, Hseq.
  split; [done|]. split; [done|]. split; [apply NoDup_seqZ|].
  intros i j ti tj Hij [-> Hi]%lookup_seqZ [-> Hj]%lookup_seqZ. lia.
Qed.

Lemma timestamps_contiguous_witness :
  ∃ w0 w, start 3 [[]; [0]] = Ok w0 ∧ run demo_ops w0 = Ok (tt, w) ∧
          Timestamps (fs w) = seqZ 1 (Z.of_nat (accesses demo_ops)).
Proof.
  eexists. eexists. split; [vm_compute; reflexivity|]. split; [vm_compute; reflexivity|].
  refine (proj1 (timestamps_contiguous 3 [[]; [0]] demo_ops _ _ _ _));
    vm_compute; reflexivity.
Defined.

(** ** C1: the last writer wins *)

Lemma effect_content w o w' file f :
  effect w o w' → heap w !! file = Some f →
  ∃ f', heap w' !! file = Some f' ∧ Name f' = Name f ∧
        Content f' = default (Content f) (written file o).
Proof.
  intros Heff Hf.
  assert (Hlt : file < length (heap w)) by (by eapply lookup_lt_Some).
  destruct Heff as [| | ? ? ? p g ? Hg | p g Hg | ? ? ? ? ? []
                    | ? p ? ? ? ? g [] Hg | ? p ? ? ? g [] Hg | ? [] ]; simpl.
  - by exists f.
  - exists f. by rewrite lookup_app_l.
  - destruct (decide (p = file)) as [->|Hne].
    + rewrite list_lookup_insert_eq by done. exists (set_IsOpen true g).
      by replace g with f by congruence.
    + rewrite list_lookup_insert_ne by done. by exists f.
  - destruct (decide (p = file)) as [->|Hne].
    + rewrite list_lookup_insert_eq by done. exists (set_IsOpen false g).
      by replace g with f by congruence.
    + rewrite list_lookup_insert_ne by done. by exists f.
  - exists f. by rewrite sub_heap0.
  - rewrite sub_heap0 in Hg |- *. destruct (decide (p = file)) as [->|Hne].
    + rewrite list_lookup_insert_eq by done. exists (set_Content content g).
      by replace g with f by congruence.
    + rewrite list_lookup_insert_ne by done. by exists f.
  - rewrite sub_heap0 in Hg |- *. destruct (decide (p = file)) as [->|Hne].
    + rewrite list_lookup_insert_eq by done. exists (set_Content content g).
      by replace g with f by congruence.
    + rewrite list_lookup_insert_ne by done. by exists f.
  - exists f. by rewrite bg_heap0.
Qed.

Lemma effect_written w o w' file content :
  effect w o w' → written file o = Some content →
  ∃ f', heap w' !! file = Some f' ∧ Content f' = content.
Proof.
  intros Heff Hw.
  assert (∃ f, heap w !! file = Some f) as [f Hf].
  { destruct Heff as [| | | | | ? p ? ? ? ? g [] Hg | ? p ? ? ? g [] Hg | ]; simpl in Hw;
      try done; case_decide; try done; subst p; rewrite sub_heap0 in Hg; by exists g. }
  destruct (effect_content _ _ _ _ _ Heff Hf) as (f' & Hf' & _ & Hc).
  exists f'. split; [done|]. by rewrite Hc, Hw.
Qed.

Lemma run_last_write file ops w w' :
  run ops w = Ok (tt, w') →
  match last_write file ops with
  | Some content => ∃ f', heap w' !! file = Some f' ∧ Content f' = content
  | None => ∀ f, heap w !! file = Some f →
                 ∃ f', heap w' !! file = Some f' ∧ Content f' = Content f
  end.
Proof.
  revert ops w w'. apply run_ind_effect.
  - intros w f Hf. by exists f.
  - intros o ops w w1 w' Heff _ IH. simpl.
    destruct (last_write file ops) as [content|]; [done|].
    destruct (written file o) as [content|] eqn:Hw.
    + destruct (effect_written _ _ _ _ _ Heff Hw) as (f1 & Hf1 & <-). by apply IH.
    + intros f Hf. destruct (effect_content _ _ _ _ _ Heff Hf) as (f1 & Hf1 & _ & Hc).
      rewrite Hw in Hc. simpl in Hc. rewrite <- Hc. by apply IH.
Qed.

(** C1.  After any run of operations that returns and in which no save
    fails, the content in memory of a file is the content argument of the
    last [WriteFile] call on that file in the run, whatever the other
    operations of the run (writes to other files, reads, opens, closes,
    spawned goroutines) are. *)
Theorem last_writer_wins file ops w w' content :
  run ops w = Ok (tt, w') →
  forallb (λ o, negb (save_fails o)) ops = true →
  last_write file ops = Some content →
  Content <$> heap w' !! file = Some content.
Proof.
  intros Hrun _ Hlast. apply (run_last_write file) in Hrun. rewrite Hlast in Hrun.
  destruct Hrun as (f' & -> & <-). done.
Qed.

Lemma last_writer_wins_witness :
  ∃ w', run demo_writes demo_world = Ok (tt, w') ∧
        Content <$> heap w' !! 0 = Some "c".
Proof.
  eexists. split; [vm_compute; reflexivity|].
  refine (last_writer_wins 0 demo_writes demo_world _ "c" _ _ _); vm_compute; reflexivity.
Defined.

(** ** C5: a failed save, and the number of audit entries *)

Lemma effect_logs w o w' :
  effect w o w' →
  length (LogFile (fs w')) = length (LogFile (fs w)) + (if completes o then 1 else 0) ∧
  length (DeferredArray (fs w')) =
    length (DeferredArray (fs w)) + (if completes o then 1 else 0).
Proof.
  destruct 1 as [| | | |? ? ? ? ? []|? ? ? ? ? ? ? []|? ? ? ? ? ? []|? [] ]; simpl;
    rewrite ?length_app; simpl;
    repeat match goal with H : _ (fs _) = _ (fs _) |- _ => rewrite H; clear H end;
    split; lia.
Qed.

Lemma run_logs ops w w' :
  run ops w = Ok (tt, w') →
  length (LogFile (fs w')) = length (LogFile (fs w)) + completed ops ∧
  length (DeferredArray (fs w')) = length (DeferredArray (fs w)) + completed ops.
Proof.
  revert ops w w'. apply run_ind_effect.
  - intros w. unfold completed. simpl. lia.
  - intros o ops w w1 w' Heff _ [IH1 IH2].
    destruct (effect_logs _ _ _ Heff) as [H1 H2].
    unfold completed in *. simpl. destruct (completes o); simpl; lia.
Qed.

(** C5.  At any point of a run of the program, a [WriteFile] whose save
    fails and which returns has replaced the content of the file in memory
    by the new content, and has appended nothing to the log file and
    nothing to the deferred array.  The number of entries of the log file
    (and of the deferred array) is the number of reads and writes of the
    run that ran to their last statement; the failed write does not
    count. *)
Theorem WriteFile_save_failure numClients sch ops w0 w clientID file content err w' :
  start numClients sch = Ok w0 →
  run ops w0 = Ok (tt, w) →
  WriteFile clientID file content (Some err) w = Ok (tt, w') →
  Content <$> heap w' !! file = Some content ∧
  LogFile (fs w') = LogFile (fs w) ∧
  DeferredArray (fs w') = DeferredArray (fs w) ∧
  length (LogFile (fs w)) = completed ops ∧
  length (DeferredArray (fs w)) = completed ops ∧
  length (LogFile (fs w')) =
    completed (ops ++ [OpWriteFile clientID file content (Some err)]).
Proof.
  intros [_ ->]%start_inv Hrun Hwrite.
  apply run_logs in Hrun as [Hl Hd]. simpl in Hl, Hd.
  apply WriteFile_spec in Hwrite as (t & w1 & f & [] & Hf & ->). simpl.
  rewrite list_lookup_insert_eq by (by eapply lookup_lt_Some).
  unfold completed in *. rewrite List.filter_app, length_app. simpl.
  rewrite sub_LogFile0, sub_DeferredArray0. repeat split; try done. lia.
Qed.

Lemma WriteFile_save_failure_witness :
  ∃ w0 w w', start 3 [] = Ok w0 ∧ run demo_prefix w0 = Ok (tt, w) ∧
    WriteFile 2 0 "b" (Some "disk full") w = Ok (tt, w') ∧
    Content <$> heap w' !! 0 = Some "b" ∧ LogFile (fs w') = LogFile (fs w).
Proof.
  eexists. eexists. eexists.
  split; [vm_compute; reflexivity|]. split; [vm_compute; reflexivity|].
  split; [vm_compute; reflexivity|].
  refine (let H := WriteFile_save_failure 3 [] demo_prefix _ _ 2 0 "b" "disk full" _ _ _ _
          in conj (proj1 H) (proj1 (proj2 H))); vm_compute; reflexivity.
Defined.

(** ** C8: one [File] object per name *)

Lemma names_insert (h : list File) file f g :
  h !! file = Some f → Name g = Name f → Name <$> <[file := g]> h = Name <$> h.
Proof.
  intros Hf Hg. rewrite list_fmap_insert. apply list_insert_id.
  by rewrite list_lookup_fmap, Hf, Hg.
Qed.

(** Every operation keeps the names of the allocated objects and the
    entries of the map; it can only add an object together with its
    entry. *)
Lemma effect_registry w o w' :
  effect w o w' → registry_ok w →
  registry_ok w' ∧ Files (fs w) ⊆ Files (fs w') ∧ (Name <$> heap w) `prefix_of` (Name <$> heap w').
Proof.
  intros Heff Hok.
  destruct Heff as [|? name c Hnone| ? ? ? p g ? Hg | p g Hg | ? p ? ? g [] Hg
                    | ? p ? ? ? ? g [] Hg | ? p ? ? ? g [] Hg | ? [] ]; simpl.
  - done.
  - split; [|split].
    + intros name' file. unfold registry_ok in Hok. simpl.
      rewrite fmap_app. simpl.
      destruct (decide (name = name')) as [<-|Hne].
      * rewrite lookup_insert_eq. split.
        -- intros [= <-]. rewrite lookup_app_r by (by rewrite length_fmap).
           by rewrite length_fmap, Nat.sub_diag.
        -- intros Hl. f_equal.
           destruct (decide (file < length (heap w))) as [Hlt|Hge].
           ++ rewrite lookup_app_l in Hl by (by rewrite length_fmap).
              apply Hok in Hl. congruence.
           ++ apply lookup_lt_Some in Hl. rewrite length_app, length_fmap in Hl.
              simpl in Hl. lia.
      * rewrite lookup_insert_ne by done. rewrite Hok. split.
        -- intros Hl. rewrite lookup_app_l; [done|]. by eapply lookup_lt_Some.
        -- intros Hl. destruct (decide (file < length (heap w))) as [Hlt|Hge].
           ++ by rewrite lookup_app_l in Hl by (by rewrite length_fmap).
           ++ rewrite lookup_app_r in Hl by (rewrite length_fmap; lia).
              rewrite length_fmap in Hl.
              destruct (file - length (heap w)) as [|k]; simpl in Hl; [congruence | done].
    + by apply insert_subseteq.
    + rewrite fmap_app. by apply prefix_app_r.
  - unfold registry_ok. simpl. by rewrite (names_insert _ _ g).
  - unfold registry_ok. simpl. by rewrite (names_insert _ _ g).
  - unfold registry_ok. simpl. by rewrite sub_heap0, sub_Files0.
  - rewrite sub_heap0 in Hg. unfold registry_ok. simpl.
    by rewrite sub_heap0, sub_Files0, (names_insert _ _ g).
  - rewrite sub_heap0 in Hg. unfold registry_ok. simpl.
    by rewrite sub_heap0, sub_Files0, (names_insert _ _ g).
  - unfold registry_ok. by rewrite bg_heap0, bg_Files0.
Qed.

Lemma run_registry ops w w' :
  run ops w = Ok (tt, w') → registry_ok w →
  registry_ok w' ∧ Files (fs w) ⊆ Files (fs w') ∧ (Name <$> heap w) `prefix_of` (Name <$> heap w').
Proof.
  revert ops w w'. apply (run_ind_effect (λ _ w w', registry_ok w →
    registry_ok w' ∧ Files (fs w) ⊆ Files (fs w') ∧
    (Name <$> heap w) `prefix_of` (Name <$> heap w'))).
  - done.
  - intros o ops w w1 w' Heff _ IH Hok.
    destruct (effect_registry _ _ _ Heff Hok) as (Hok1 & Hsub1 & Hpre1).
    destruct (IH Hok1) as (Hok' & Hsub' & Hpre'). split; [done|]. split; by etrans.
Qed.

Lemma registry_ok_start numClients sch w : start numClients sch = Ok w → registry_ok w.
Proof. intros [_ ->]%start_inv name file. simpl. by rewrite lookup_empty. Qed.

(** C8.  In every state [w] the program reaches from its start:
    - the [Files] map and the allocated [File] objects correspond one to
      one by name, so no name has two objects;
    - [OpenFile] returns; for a registered name it returns the registered
      object, sets its open flag and changes nothing else of the heap or
      the map; for an unregistered name it allocates one object and
      registers it if the load succeeds, and changes neither heap nor map
      if the load fails;
    - whatever runs afterwards, every entry of the map stays as it is and
      every object keeps its name. *)
Theorem one_handle_per_name numClients sch ops w0 w :
  start numClients sch = Ok w0 →
  run ops w0 = Ok (tt, w) →
  registry_ok w ∧
  (∀ clientID fileName disk, ∃ r w',
     OpenFile clientID fileName disk w = Ok (r, w') ∧
     match Files (fs w) !! fileName, disk with
     | Some file, _ =>
         r = Some file ∧ Files (fs w') = Files (fs w) ∧
         ∃ f, heap w !! file = Some f ∧ Name f = fileName ∧
              heap w' = <[file := set_IsOpen true f]> (heap w)
     | None, Success fileContent =>
         r = Some (length (heap w)) ∧
         Files (fs w') = <[fileName := length (heap w)]> (Files (fs w)) ∧
         heap w' = heap w ++ [mkFile fileName true fileContent]
     | None, Failure _ =>
         r = None ∧ Files (fs w') = Files (fs w) ∧ heap w' = heap w
     end) ∧
  (∀ ops' w', run ops' w = Ok (tt, w') →
     Files (fs w) ⊆ Files (fs w') ∧ (Name <$> heap w) `prefix_of` (Name <$> heap w')).
Proof.
  intros Hstart Hrun.
  apply run_registry in Hrun as (Hok & _ & _); [|by eapply registry_ok_start].
  split; [done|]. split.
  - intros clientID fileName disk.
    destruct (Files (fs w) !! fileName) as [file|] eqn:HF.
    + pose proof HF as Hname. apply Hok in Hname. rewrite list_lookup_fmap in Hname.
      destruct (heap w !! file) as [f|] eqn:Hf; simpl in Hname; [|done].
      injection Hname as Hname.
      exists (Some file), (open_again clientID fileName file f w).
      split; [by apply OpenFile_again|]. split; [done|]. split; [done|]. by exists f.
    + destruct disk as [fileContent|err].
      * exists (Some (length (heap w))), (open_created clientID fileName fileContent w).
        split; [by apply OpenFile_created | done].
      * exists None, (open_failed fileName err w).
        split; [by apply OpenFile_failure | done].
  - intros ops' w' Hrun'. by apply run_registry in Hrun' as (_ & ? & ?).
Qed.

Lemma one_handle_per_name_witness :
  ∃ w0 w, start 3 [] = Ok w0 ∧ run demo_prefix w0 = Ok (tt, w) ∧ registry_ok w.
Proof.
  eexists. eexists. split; [vm_compute; reflexivity|]. split; [vm_compute; reflexivity|].
  refine (proj1 (one_handle_per_name 3 [] demo_prefix _ _ _ _)); vm_compute; reflexivity.
Defined.

(** ** C6: a client whose file cannot be loaded *)

Lemma take_turn_Returned i rd wr pcs w :
  pcs !! i = Some Returned → take_turn (Step i rd wr) pcs w = Ok (pcs, w).
Proof.
  intros Hi. unfold take_turn. rewrite Hi. unfold bind, client_step, ret.
  by rewrite list_insert_id.
Qed.

(** C6.  When [OpenFile] is called for a name that is not registered and
    the load fails, it returns no file and changes nothing but standard
    output, where it reports the error: the shared struct (the [Files]
    map, the ledger, the log file, the deferred array) and the heap are as
    before.  The body of that client then ends without calling
    [WriteFile], [ReadFile] or [CloseFile]: its whole effect is that of the
    failed [OpenFile], and once it has returned none of its turns changes
    anything. *)
Theorem OpenFile_load_failure client err wr w :
  Files (fs w) !! FileName client = None →
  ∃ w', OpenFile (ID client) (FileName client) (Failure err) w = Ok (None, w') ∧
        fs w' = fs w ∧ heap w' = heap w ∧
        goroutines w' = goroutines w ∧ history w' = history w ∧
        client_body client (Failure err) wr w = Ok (tt, w') ∧
        client_step client (Failure err) wr AtOpenFile w = Ok (Returned, w') ∧
        ∀ rd' wr' w2, client_step client rd' wr' Returned w2 = Ok (Returned, w2).
Proof.
  intros HF. exists (open_failed (FileName client) err w).
  pose proof (OpenFile_failure (ID client) _ err _ HF) as Hopen.
  split; [done|]. repeat (split; [done|]).
  split; [|split; [|done]].
  - unfold client_body, bind. by rewrite Hopen.
  - unfold client_step, bind. by rewrite Hopen.
Qed.

Lemma OpenFile_load_failure_witness :
  ∃ w0 w', start 3 [] = Ok w0 ∧
    OpenFile 1 "file1.txt" (Failure "no such file") w0 = Ok (None, w') ∧
    fs w' = fs w0 ∧
    client_body (mkClient 1 "file1.txt") (Failure "no such file") None w0 = Ok (tt, w').
Proof.
  eexists. eexists. split; [vm_compute; reflexivity|].
  destruct (OpenFile_load_failure (mkClient 1 "file1.txt") "no such file" None
              (mkWorld (mkDFS ∅ [] [false; false; false] [] [] []) [] [] [] [] []))
    as (w' & Hopen & Hfs & _ & _ & _ & Hbody & _).
  - vm_compute; reflexivity.
  - injection Hopen as Hopen. rewrite <- Hopen in Hfs, Hbody.
    split; [vm_compute; reflexivity|]. split; [exact Hfs | exact Hbody].
Defined.

(** ** Executions of [main] are runs *)

Lemma exec_run o w w' : exec o w = Ok (tt, w') → run [o] w = Ok (tt, w').
Proof.
  intros H. unfold run. simpl. apply bind_Ok. exists tt, w'. done.
Qed.

Lemma take_turn_run t pcs w pcs' w' :
  take_turn t pcs w = Ok (pcs', w') →
  length pcs' = length pcs ∧
  ∃ ops, run ops w = Ok (tt, w') ∧ Forall (main_op (length pcs)) ops.
Proof.
  destruct t as [i rd wr|]; simpl.
  - destruct (pcs !! i) as [at_|] eqn:Hi.
    2:{ intros [= <- <-]. split; [done|]. by exists []. }
    assert (Hlt : i < length pcs) by (by eapply lookup_lt_Some).
    intros (at' & w1 & Hstep & [= <- <-])%bind_Ok.
    split; [by rewrite length_insert|].
    assert (Hid : (1 ≤ ID (client_of i) ≤ Z.of_nat (length pcs))%Z) by (simpl; lia).
    destruct at_ as [|file|file|file|]; simpl in Hstep.
    + apply bind_Ok in Hstep as (r & w2 & Hopen & Hret).
      assert (w2 = w1) as -> by (by destruct r; injection Hret).
      exists [OpOpenFile (ID (client_of i)) (FileName (client_of i)) rd].
      split; [|by apply Forall_singleton].
      apply exec_run. simpl. apply bind_Ok. by exists r, w1.
    + apply bind_Ok in Hstep as ([] & w2 & Hwrite & [= _ <-]).
      eexists [OpWriteFile (ID (client_of i)) file _ wr].
      split; [|by apply Forall_singleton]. by apply exec_run.
    + apply bind_Ok in Hstep as ([] & w2 & Hread & [= _ <-]).
      exists [OpReadFile (ID (client_of i)) file].
      split; [|by apply Forall_singleton]. by apply exec_run.
    + apply bind_Ok in Hstep as ([] & w2 & Hclose & [= _ <-]).
      exists [OpCloseFile file].
      split; [|by apply Forall_singleton]. by apply exec_run.
    + injection Hstep as _ <-. by exists [].
  - intros ([] & w1 & Hsched & [= <- <-])%bind_Ok. split; [done|].
    exists [OpGosched]. split; [by apply exec_run | by apply Forall_singleton].
Qed.

Lemma interleave_run turns pcs w pcs' w' :
  interleave turns pcs w = Ok (pcs', w') →
  length pcs' = length pcs ∧
  ∃ ops, run ops w = Ok (tt, w') ∧ Forall (main_op (length pcs)) ops.
Proof.
  revert pcs w. induction turns as [|t turns IH]; intros pcs w; simpl.
  - intros [= <- <-]. split; [done|]. by exists [].
  - intros (pcs1 & w1 & Hturn & Hrest)%bind_Ok.
    apply take_turn_run in Hturn as (Hlen1 & ops1 & Hrun1 & Hall1).
    apply IH in Hrest as (Hlen & ops & Hrun & Hall). rewrite Hlen1 in Hlen, Hall.
    split; [done|]. exists (ops1 ++ ops). split.
    + apply run_app. by exists w1.
    + by apply Forall_app.
Qed.

(** Every execution of [main] is a run, from the start world, of
    operations of clients 1..numClients. *)
Lemma main_run numClients sch turns pcs w :
  main numClients sch turns = Ok (pcs, w) →
  ∃ w0 ops, start numClients sch = Ok w0 ∧ run ops w0 = Ok (tt, w) ∧
            Forall (main_op (Z.to_nat numClients)) ops.
Proof.
  unfold main. destruct (start numClients sch) as [w0|e] eqn:Hstart; [|done].
  intros (_ & ops & Hrun & Hall)%interleave_run. rewrite length_replicate in Hall.
  by exists w0, ops.
Qed.

(** ** C10: slot 0 of the acknowledgment slice *)

Lemma background_gate n w w' : background w w' → gate_inv n w → gate_inv n w'.
Proof.
  intros [] []. split.
  - congruence.
  - intros Hn.
    destruct (lookup_lt_is_Some_2 (Acknowledged (fs w')) 0) as [b Hb]; [lia|].
    destruct b; [|done].
    destruct (bg_slot0 0 Hb) as [Hold|(c & r & Hin & Hr)].
    + rewrite gi_slot1 in Hold by done. discriminate.
    + apply gi_pool0 in Hin. lia.
  - intros r. rewrite bg_Requests0. apply gi_requests0.
  - intros c r Hin. apply (gi_pool0 c). by apply bg_pool0.
  - destruct bg_history0 as (evs & -> & Hevs). intros e [Hin|Hin]%elem_of_app.
    + by apply gi_history0.
    + rewrite Forall_forall in Hevs. destruct (Hevs e Hin) as (c & r & -> & Hpool).
      simpl. by eapply gi_pool0.
Qed.

Lemma ReceiveAcknowledge_gate n w b w' :
  0 < n → ReceiveAcknowledge w = Ok (b, w') → gate_inv n w → b = false ∧ gate_inv n w'.
Proof.
  intros Hn Hpoll Hinv. pose proof Hinv as [].
  rewrite ReceiveAcknowledge_eq in Hpoll.
  assert (all_true (Acknowledged (fs w)) = false) as Hfalse.
  { apply all_true_false. exists 0. by apply gi_slot1. }
  rewrite Hfalse in Hpoll. injection Hpoll as <- <-. split; [done|].
  split; simpl; try done.
  intros e [Hin|Hin]%elem_of_app; [by apply gi_history0|].
  apply list_elem_of_singleton in Hin as ->. done.
Qed.

Lemma poll_body_gate n clientID r :
  0 < n → preserves (keeps (gate_inv n)) (poll_body clientID r).
Proof.
  intros Hn. unfold poll_body. apply preserves_if; [|apply preserves_ret; apply _].
  apply preserves_bind; [apply _ | | intros _].
  { intros w [] w' Hs Hinv. eapply background_gate; [|exact Hinv].
    by eapply Gosched_background. }
  apply preserves_bind; [apply _ | | intros _; apply preserves_ret; apply _].
  intros w b w' Hpoll Hinv. by eapply ReceiveAcknowledge_gate.
Qed.

Lemma broadcast_gate n clientID file w :
  (1 ≤ clientID)%Z → gate_inv n w → gate_inv n (broadcast_world clientID file w).
Proof.
  intros Hc []. unfold broadcast_world.
  set (rs := Requests (fs w) ++ _).
  assert (Hrs : ∀ r, r ∈ rs → (1 ≤ ClientID r)%Z).
  { intros r [Hin|Hin]%elem_of_app; [by apply gi_requests0|].
    apply list_elem_of_singleton in Hin as ->. done. }
  split; simpl; try done.
  - intros c r [Hin|Hin]%elem_of_app; [by eapply gi_pool0|].
    apply list_elem_of_fmap in Hin as (r' & [= -> ->] & Hin).
    apply list_elem_of_filter in Hin as [_ Hin]. by apply Hrs.
  - intros e [Hin|Hin]%elem_of_app; [by apply gi_history0|].
    apply list_elem_of_fmap in Hin as (r' & -> & Hin).
    apply list_elem_of_filter in Hin as [_ Hin]. simpl. by apply Hrs.
Qed.

Lemma submit_gate n clientID file w t w' :
  (1 ≤ clientID ≤ Z.of_nat n)%Z →
  submit clientID file w = Ok (t, w') → gate_inv n w → gate_inv n w'.
Proof.
  intros Hc [_ Hloop]%submit_unfold Hinv.
  eapply (preserves_for_range (keeps (gate_inv n))); [| exact Hloop |].
  - intros r _. apply poll_body_gate. lia.
  - apply broadcast_gate; [lia | done].
Qed.

Lemma effect_gate n w o w' :
  effect w o w' → main_op n o → gate_inv n w → gate_inv n w'.
Proof.
  intros Heff Hop Hinv.
  destruct Heff as [| | | | ? ? ? ? ? Hsub | ? ? ? ? ? ? ? Hsub | ? ? ? ? ? ? Hsub | ? Hbg].
  1-4: by destruct Hinv.
  1-3: destruct Hsub; pose proof (submit_gate n _ _ _ _ _ Hop sub_run0 Hinv) as [];
       by split.
  by eapply background_gate.
Qed.

Lemma run_gate n ops w w' :
  run ops w = Ok (tt, w') → Forall (main_op n) ops → gate_inv n w → gate_inv n w'.
Proof.
  revert ops w w'. apply (run_ind_effect (λ ops w w',
    Forall (main_op n) ops → gate_inv n w → gate_inv n w')).
  - done.
  - intros o ops w w1 w' Heff _ IH [Ho Hops]%Forall_cons Hinv.
    apply IH; [done|]. by eapply effect_gate.
Qed.

(** C10.  [main] gives its clients the ids 1..numClients and makes
    [Acknowledged] a slice of numClients slots indexed by these ids.  In
    every state an execution of [main] reaches: the slice still has
    numClients slots; if it is not empty its slot 0 is [false]; every
    [SendRequest] that has run, and every one still waiting in the pool,
    is for a request whose client id is at least 1, so none sets slot 0;
    and no call of [ReceiveAcknowledge] has taken the exit that resets the
    slice. *)
Theorem slot_zero_never_set numClients sch turns pcs w :
  main numClients sch turns = Ok (pcs, w) →
  length (Acknowledged (fs w)) = Z.to_nat numClients ∧
  (Acknowledged (fs w) ≠ [] → Acknowledged (fs w) !! 0 = Some false) ∧
  (∀ c r, EvSendRequest c r ∈ history w → (1 ≤ ClientID r)%Z) ∧
  (∀ c r, (c, r) ∈ goroutines w → (1 ≤ ClientID r)%Z) ∧
  Forall (λ full, full = false) (polls (history w)) ∧
  (0 < numClients → ∃ w', ReceiveAcknowledge w = Ok (false, w'))%Z.
Proof.
  intros (w0 & ops & [Hn ->]%start_inv & Hrun & Hops)%main_run.
  eapply run_gate in Hrun; [|exact Hops|].
  2:{ split; simpl; try done.
      - by rewrite length_replicate.
      - intros Hpos. by apply lookup_replicate_2.
      - intros r Hr. by apply elem_of_nil in Hr.
      - intros c r Hr. by apply elem_of_nil in Hr.
      - intros e He. by apply elem_of_nil in He. }
  destruct Hrun. split; [done|]. split.
  { intros Hne. apply gi_slot1. destruct (Acknowledged (fs w)); [done | simpl in *; lia]. }
  split; [intros c r Hin; by apply (gi_history0 _ Hin)|].
  split; [done|]. split.
  - apply Forall_forall. intros b Hb. unfold polls in Hb.
    apply list_elem_of_omap in Hb as (e & He & Hb).
    apply gi_history0 in He. destruct e; simplify_eq. done.
  - intros Hpos. rewrite ReceiveAcknowledge_eq.
    assert (all_true (Acknowledged (fs w)) = false) as ->.
    { apply all_true_false. exists 0. apply gi_slot1. lia. }
    by eexists.
Qed.

Lemma slot_zero_never_set_witness :
  ∃ pcs w, main 3 demo_sched demo_turns = Ok (pcs, w) ∧
           length (Acknowledged (fs w)) = Z.to_nat 3.
Proof.
  eexists. eexists. split; [vm_compute; reflexivity|].
  refine (proj1 (slot_zero_never_set 3 demo_sched demo_turns _ _ _)).
  vm_compute; reflexivity.
Defined.

(** ** C4: [SendRequest] and its bounds check *)

(** A client id at or beyond the length of [Acknowledged] is reported and
    the slice is left as it is; an id within bounds sets its slot and no
    other. *)
Lemma SendRequest_guarded clientID request w :
  (0 ≤ ClientID request)%Z →
  ∃ w', SendRequest clientID request w = Ok (tt, w') ∧
    length (Acknowledged (fs w')) = length (Acknowledged (fs w)) ∧
    (∀ i, Z.of_nat i ≠ ClientID request →
          Acknowledged (fs w') !! i = Acknowledged (fs w) !! i) ∧
    if bool_decide (ClientID request < Z.of_nat (length (Acknowledged (fs w))))%Z
    then Acknowledged (fs w') !! Z.to_nat (ClientID request) = Some true
    else Acknowledged (fs w') = Acknowledged (fs w) ∧
         last (stdout w') = Some ("Invalid client ID in SendRequest......" +:+ nl).
Proof.
  intros Hnn. case_bool_decide as Hlt.
  - eexists. split; [by apply SendRequest_in_bounds|]. simpl.
    split; [by rewrite length_insert|]. split.
    + intros i Hi. apply list_lookup_insert_ne. lia.
    + apply list_lookup_insert_eq. lia.
  - eexists. split; [apply SendRequest_beyond; lia|]. simpl.
    split; [done|]. split; [done|]. split; [done|]. by rewrite last_snoc.
Qed.

(** C4.  The guard of [SendRequest] compares the client id with the
    length of [Acknowledged] only.  For the request of a client with id -1
    the guard holds, the indexed assignment is executed, and the call
    panics instead of reporting the id and returning. *)
Theorem SendRequest_negative_id_panics :
  SendRequest 2 (mkRequest (-1) 0 1) demo_world = Panic (IndexOutOfRange (-1) 3).
Proof. vm_compute. reflexivity. Qed.

(** Such a request enters the ledger through the operations themselves:
    a client with id -1 writes, client 1 writes next and spawns
    [SendRequest] for the first request, and the program panics as soon
    as that goroutine runs. *)
Lemma negative_client_id_crashes :
  ∃ w0, start 3 [[0]] = Ok w0 ∧
        run [OpOpenFile (-1) "file1.txt" (Success "old");
             OpWriteFile (-1) 0 "a" None;
             OpWriteFile 1 0 "b" None] w0 = Panic (IndexOutOfRange (-1) 3).
Proof. eexists. split; vm_compute; reflexivity. Qed.

(** ** The variant of [cls.go] *)

Lemma Cls_SendRequest_out_of_bounds clientID request w :
  ¬ (0 ≤ ClientID request < Z.of_nat (length (Acknowledged (fs w))))%Z →
  Cls.SendRequest clientID request w =
    Panic (IndexOutOfRange (ClientID request) (length (Acknowledged (fs w)))).
Proof.
  intros Hout.
  unfold Cls.SendRequest, bind, record, Printf, modify, gets, slice_store. simpl.
  by rewrite bool_decide_eq_false_2.
Qed.

(** Before the first reset of the slice every [SendRequest] of [cls.go]
    panics. *)
Lemma Cls_SendRequest_at_start clientID request sch :
  Cls.SendRequest clientID request (Cls.start sch) =
    Panic (IndexOutOfRange (ClientID request) 0).
Proof. apply Cls_SendRequest_out_of_bounds. simpl. lia. Qed.

(** ** [main] does not panic *)

Lemma run_goroutines_total ks w :
  pool_nonneg w → ∃ w', for_range ks run_goroutine w = Ok (tt, w').
Proof.
  revert w. induction ks as [|k ks IH]; intros w Hpool; simpl.
  - by eexists.
  - assert (∃ w1, run_goroutine k w = Ok (tt, w1)) as [w1 H1].
    { unfold run_goroutine. destruct (goroutines w !! k) as [[c r]|] eqn:Hk; [|by eexists].
      destruct (SendRequest_guarded c r (set_goroutines (delete k) w)) as (w1 & H1 & _).
      - apply (Hpool c). by eapply list_elem_of_lookup_2.
      - by exists w1. }
    destruct (IH w1) as [w' H'].
    + intros c r Hin. apply (Hpool c).
      by apply (bg_pool _ _ (run_goroutine_background k _ _ _ H1)).
    + exists w'. unfold bind. by rewrite H1.
Qed.

Lemma Gosched_total w : pool_nonneg w → ∃ w', Gosched w = Ok (tt, w').
Proof.
  intros Hpool. unfold Gosched. destruct (sched w) as [|ks rest]; [by eexists|].
  by apply run_goroutines_total.
Qed.

Lemma poll_loop_total clientID rs w :
  pool_nonneg w → ∃ w', for_range rs (poll_body clientID) w = Ok (tt, w').
Proof.
  revert w. induction rs as [|r rs IH]; intros w Hpool; simpl.
  - by eexists.
  - assert (∃ w1, poll_body clientID r w = Ok (tt, w1)) as [w1 H1].
    { unfold poll_body. case_bool_decide; [|by eexists].
      destruct (Gosched_total w Hpool) as [w1 H1].
      unfold bind. rewrite H1, ReceiveAcknowledge_eq.
      destruct (all_true (Acknowledged (fs w1))); by eexists. }
    destruct (IH w1) as [w' H'].
    + intros c r' Hin. apply (Hpool c).
      by apply (q_pool _ _ (poll_body_quiet clientID r _ _ _ H1)).
    + exists w'. unfold bind. by rewrite H1.
Qed.








(** * Further properties of the program *)

(** ** [SendRequest] on non-negative client ids *)

(** X1.  For a request of a client with a non-negative id [SendRequest]
    returns.  If the id is below the length of [Acknowledged], that slot
    is [true] afterwards and every other slot and the length are as
    before; otherwise the slice is unchanged and the last line printed
    reports the invalid id.  Nothing else of the shared struct and nothing
    of the heap changes, and running the same call again changes the
    shared struct no further. *)
Theorem SendRequest_nonnegative_id clientID request w :
  (0 ≤ ClientID request)%Z →
  ∃ w', SendRequest clientID request w = Ok (tt, w') ∧
    Acknowledged (fs w') =
      (if bool_decide (ClientID request < Z.of_nat (length (Acknowledged (fs w))))%Z
       then <[Z.to_nat (ClientID request) := true]> (Acknowledged (fs w))
       else Acknowledged (fs w)) ∧
    ((ClientID request < Z.of_nat (length (Acknowledged (fs w))))%Z ∨
     last (stdout w') = Some ("Invalid client ID in SendRequest......" +:+ nl)) ∧
    set_Acknowledged (λ _, Acknowledged (fs w)) (fs w') = fs w ∧
    heap w' = heap w ∧
    ∃ w'', SendRequest clientID request w' = Ok (tt, w'') ∧ fs w'' = fs w'.
Proof.
  intros Hnn. case_bool_decide as Hlt.
  - eexists. split; [by apply SendRequest_in_bounds|]. simpl.
    split; [done|]. split; [by left|]. split; [by destruct w as [[]]|]. split; [done|].
    eexists. split; [apply SendRequest_in_bounds; simpl; rewrite length_insert; lia|].
    simpl. unfold set_Acknowledged. simpl. f_equal. apply list_insert_insert_eq.
  - eexists. split; [apply SendRequest_beyond; lia|]. simpl.
    split; [done|]. split; [right; by rewrite last_snoc|].
    split; [by destruct w as [[]]|]. split; [done|].
    eexists. split; [apply SendRequest_beyond; simpl; lia | done].
Qed.

Lemma SendRequest_nonnegative_id_witness :
  ∃ w', SendRequest 1 (mkRequest 3 0 2) demo_world = Ok (tt, w') ∧
        heap w' = heap demo_world.
Proof.
  destruct (SendRequest_nonnegative_id 1 (mkRequest 3 0 2) demo_world)
    as (w' & H1 & _ & _ & _ & H2 & _); [simpl; lia|].
  exists w'. split; [exact H1 | exact H2].
Defined.


(** ** [CloseFile] *)

(** X2.  [CloseFile] panics on a pointer to no object.  On an allocated
    object it returns, having cleared the open flag of that object and
    nothing else: the object keeps name and content, every other object,
    the [Files] map and the rest of the shared struct are as before, and
    one line is printed. *)
Theorem CloseFile_effect (file : ptr) (w : World) :
  match heap w !! file with
  | None => CloseFile file w = Panic (NilDereference file)
  | Some f =>
      ∃ w', CloseFile file w = Ok (tt, w') ∧
        heap w' !! file = Some (mkFile (Name f) false (Content f)) ∧
        (∀ p, p ≠ file → heap w' !! p = heap w !! p) ∧
        length (heap w') = length (heap w) ∧
        fs w' = fs w ∧ goroutines w' = goroutines w ∧ history w' = history w ∧
        stdout w' = stdout w ++ ["File " +:+ Name f +:+ " closed" +:+ nl]
  end.
Proof.
  rewrite CloseFile_eq. destruct (heap w !! file) as [f|] eqn:Hf; [|done].
  exists (closed file f w). split; [done|]. simpl.
  split; [apply list_lookup_insert_eq; by eapply lookup_lt_Some|].
  split; [intros p Hp; by apply list_lookup_insert_ne|].
  split; [by rewrite length_insert | done].
Qed.

(** ** The open flag is never consulted *)

Lemma submit_returns clientID file w :
  notifiable clientID w → ∃ t w', submit clientID file w = Ok (t, w').
Proof.
  intros [Hpool Hreq].
  destruct (poll_loop_total clientID
              (Requests (fs (broadcast_world clientID file w)))
              (broadcast_world clientID file w)) as [w' Hloop].
  - intros c r [Hin|Hin]%elem_of_app; [by eapply Hpool|].
    apply list_elem_of_fmap in Hin as (r' & [= -> ->] & Hin).
    apply list_elem_of_filter in Hin as [Hne Hin].
    apply elem_of_app in Hin as [Hin|Hin]; [by apply Hreq|].
    apply list_elem_of_singleton in Hin as ->. done.
  - eexists _, w'. by apply submit_unfold.
Qed.



(** ** The order of notifications *)

(** X4.  Two executions of [SendRequest] commute: if they succeed in one
    order they succeed in the other, and both orders leave the same
    shared struct and the same heap (only the order of the lines on
    standard output and of the history differs). *)
Theorem SendRequest_commute c1 r1 c2 r2 w wa wab :
  SendRequest c1 r1 w = Ok (tt, wa) →
  SendRequest c2 r2 wa = Ok (tt, wab) →
  ∃ wb wba, SendRequest c2 r2 w = Ok (tt, wb) ∧
            SendRequest c1 r1 wb = Ok (tt, wba) ∧
            fs wba = fs wab ∧ heap wba = heap wab ∧ goroutines wba = goroutines wab.
Proof.
  intros H1 H2.
  assert (N1 : (0 ≤ ClientID r1)%Z).
  { destruct (decide (ClientID r1 < 0)%Z); [|lia]. by rewrite SendRequest_negative in H1. }
  assert (N2 : (0 ≤ ClientID r2)%Z).
  { destruct (decide (ClientID r2 < 0)%Z); [|lia]. by rewrite SendRequest_negative in H2. }
  set (n := length (Acknowledged (fs w))).
  destruct (decide (ClientID r1 < Z.of_nat n)%Z) as [I1|O1];
    destruct (decide (ClientID r2 < Z.of_nat n)%Z) as [I2|O2].
  - rewrite SendRequest_in_bounds in H1 by (subst n; lia). injection H1 as <-.
    rewrite SendRequest_in_bounds in H2 by (simpl; rewrite length_insert; subst n; lia).
    injection H2 as <-.
    eexists _, _. split; [apply SendRequest_in_bounds; subst n; lia|].
    split; [apply SendRequest_in_bounds; simpl; rewrite length_insert; subst n; lia|].
    simpl. split; [|done]. unfold set_Acknowledged. simpl. f_equal.
    destruct (decide (Z.to_nat (ClientID r1) = Z.to_nat (ClientID r2))) as [->|Hne].
    + by rewrite !list_insert_insert_eq.
    + by apply list_insert_insert_ne.
  - rewrite SendRequest_in_bounds in H1 by (subst n; lia). injection H1 as <-.
    rewrite SendRequest_beyond in H2 by (simpl; rewrite length_insert; subst n; lia).
    injection H2 as <-.
    eexists _, _. split; [apply SendRequest_beyond; subst n; lia|].
    split; [apply SendRequest_in_bounds; simpl; subst n; lia|]. done.
  - rewrite SendRequest_beyond in H1 by (subst n; lia). injection H1 as <-.
    rewrite SendRequest_in_bounds in H2 by (simpl; subst n; lia). injection H2 as <-.
    eexists _, _. split; [apply SendRequest_in_bounds; subst n; lia|].
    split; [apply SendRequest_beyond; simpl; rewrite length_insert; subst n; lia|]. done.
  - rewrite SendRequest_beyond in H1 by (subst n; lia). injection H1 as <-.
    rewrite SendRequest_beyond in H2 by (simpl; subst n; lia). injection H2 as <-.
    eexists _, _. split; [apply SendRequest_beyond; subst n; lia|].
    split; [apply SendRequest_beyond; simpl; subst n; lia|]. done.
Qed.

Lemma SendRequest_commute_witness :
  ∃ wb wba,
    SendRequest 3 (mkRequest 1 0 1) demo_world = Ok (tt, wb) ∧
    SendRequest 1 (mkRequest 2 0 2) wb = Ok (tt, wba) ∧
    Acknowledged (fs wba) = [false; true; true].
Proof.
  edestruct (SendRequest_commute 1 (mkRequest 2 0 2) 3 (mkRequest 1 0 1) demo_world)
    as (wb & wba & H3 & H4 & Hfs & _);
    [vm_compute; reflexivity | vm_compute; reflexivity |].
  exists wb, wba. split; [exact H3|]. split; [exact H4|]. by rewrite Hfs.
Defined.

(** ** The evolution of the acknowledgment slice *)

Global Instance gate_step_refl : Reflexive gate_step.
Proof.
  intros w. split; [done | by left |]. exists []. by rewrite app_nil_r.
Qed.

Global Instance gate_step_trans : Transitive gate_step.
Proof.
  intros w1 w2 w3 [P1 L1 (e1 & E1 & K1)] [P2 L2 (e2 & E2 & K2)]. split.
  - by etrans.
  - destruct L2 as [L2|L2]; [|by right]. rewrite L2.
    destruct L1 as [L1|L1]; [by left|]. right.
    apply prefix_length in P2. lia.
  - exists (e1 ++ e2). split; [by rewrite E2, E1, app_assoc|].
    rewrite polls_app. intros [F1 F2]%Forall_app.
    destruct (K1 F1) as [Hl1 Hm1]. destruct (K2 F2) as [Hl2 Hm2].
    split; [congruence|]. intros i Hi. by apply Hm2, Hm1.
Qed.

Lemma run_goroutine_gate_step k : preserves gate_step (run_goroutine k).
Proof.
  intros w [] w'. unfold run_goroutine.
  destruct (goroutines w !! k) as [[c r]|] eqn:Hk; [|intros [= <-]; reflexivity].
  set (w0 := set_goroutines (delete k) w).
  destruct (decide (ClientID r < 0)%Z) as [Hneg|Hnn].
  { by rewrite SendRequest_negative. }
  destruct (decide (ClientID r < Z.of_nat (length (Acknowledged (fs w0))))%Z) as [Hlt|Hge].
  - rewrite SendRequest_in_bounds by lia. intros [= <-].
    split; simpl; [done | left; by rewrite length_insert |].
    exists [EvSendRequest c r]. split; [done|]. intros _.
    split; [by rewrite length_insert|]. intros i Hi.
    destruct (decide (Z.to_nat (ClientID r) = i)) as [<-|Hne].
    + apply list_lookup_insert_eq. by eapply lookup_lt_Some.
    + by rewrite list_lookup_insert_ne.
  - rewrite SendRequest_beyond by lia. intros [= <-].
    split; simpl; [done | by left |].
    exists [EvSendRequest c r]. done.
Qed.

Lemma Gosched_gate_step : preserves gate_step Gosched.
Proof.
  intros w [] w'. unfold Gosched.
  destruct (sched w) as [|ks rest]; [intros [= <-]; reflexivity|].
  intros Hrun.
  apply (preserves_for_range gate_step) in Hrun.
  - destruct Hrun. by split.
  - intros k _. apply run_goroutine_gate_step.
Qed.

Lemma ReceiveAcknowledge_gate_step : preserves gate_step ReceiveAcknowledge.
Proof.
  intros w b w'. rewrite ReceiveAcknowledge_eq.
  destruct (all_true _); intros [= _ <-]; split; simpl; try done.
  - right. by rewrite length_replicate.
  - exists [EvReceiveAcknowledge true]. split; [done|].
    simpl. intros [[=] _]%Forall_cons.
  - by left.
  - exists [EvReceiveAcknowledge false]. done.
Qed.

Lemma poll_body_gate_step clientID r : preserves gate_step (poll_body clientID r).
Proof.
  unfold poll_body. apply preserves_if; [|apply preserves_ret; apply _].
  apply preserves_bind; [apply _ | apply Gosched_gate_step | intros _].
  apply preserves_bind; [apply _ | apply ReceiveAcknowledge_gate_step | intros _].
  apply preserves_ret; apply _.
Qed.

Lemma submit_gate_step clientID file w t w' :
  submit clientID file w = Ok (t, w') → gate_step w w'.
Proof.
  intros [_ Hloop]%submit_unfold.
  transitivity (broadcast_world clientID file w).
  - split; simpl; [by apply prefix_app_r | by left |].
    eexists. split; [done|]. by rewrite polls_EvGo.
  - eapply (preserves_for_range gate_step); [|exact Hloop].
    intros r _. apply poll_body_gate_step.
Qed.

Lemma run_cons o ops w w' :
  run (o :: ops) w = Ok (tt, w') ↔
  ∃ w1, exec o w = Ok (tt, w1) ∧ run ops w1 = Ok (tt, w').
Proof.
  unfold run. simpl. rewrite bind_Ok. split.
  - intros ([] & w1 & ? & ?). eauto.
  - intros (w1 & ? & ?). by exists tt, w1.
Qed.

Lemma exec_gate_step o w w' : exec o w = Ok (tt, w') → gate_step w w'.
Proof.
  assert (Hsame : ∀ w1 w2, Requests (fs w2) = Requests (fs w1) →
            Acknowledged (fs w2) = Acknowledged (fs w1) → history w2 = history w1 →
            gate_step w1 w2).
  { intros w1 w2 HR HA HH. split.
    - by rewrite HR.
    - left. by rewrite HA.
    - exists []. rewrite app_nil_r, HA. done. }
  intros Hexec. pose proof (exec_inv _ _ _ Hexec) as Heff.
  destruct Heff as [| | | | ? ? ? ? ? Hsub | ? ? ? ? ? ? ? Hsub | ? ? ? ? ? ? Hsub | ? Hbg].
  1-4: by apply Hsame.
  1-3: (etrans; [eapply submit_gate_step, (sub_run _ _ _ _ _ Hsub) | by apply Hsame]).
  by eapply Gosched_gate_step.
Qed.

Lemma run_gate_step ops w w' : run ops w = Ok (tt, w') → gate_step w w'.
Proof.
  revert w. induction ops as [|o ops IH]; intros w.
  - intros [= <-]. reflexivity.
  - intros (w1 & Ho & Hrest)%run_cons. etrans; [by eapply exec_gate_step | by apply IH].
Qed.

(** X5.  Between two resets the acknowledgment slice only gains
    acknowledgments.  Consider what any run adds to the history: if none of
    the calls of [ReceiveAcknowledge] in it took the reset exit, the slice
    has the length it had before the run and every slot that was [true]
    is still [true].  Neither a spawned [SendRequest] nor any client
    operation ever clears a slot or resizes the slice. *)
Theorem gate_only_gains ops w w' :
  run ops w = Ok (tt, w') →
  ∃ evs, history w' = history w ++ evs ∧
    (Forall (λ full, full = false) (polls evs) →
     length (Acknowledged (fs w')) = length (Acknowledged (fs w)) ∧
     ∀ i, Acknowledged (fs w) !! i = Some true → Acknowledged (fs w') !! i = Some true).
Proof. intros H. by destruct (run_gate_step _ _ _ H). Qed.

Lemma gate_only_gains_witness :
  ∃ w', run demo_writes demo_world = Ok (tt, w') ∧
        ∃ evs, history w' = history demo_world ++ evs.
Proof.
  eexists. split; [vm_compute; reflexivity|].
  edestruct (gate_only_gains demo_writes demo_world) as (evs & Hh & _);
    [vm_compute; reflexivity|].
  exists evs. exact Hh.
Defined.

(** X6.  The length of the acknowledgment slice follows the ledger: after
    any run the slice either still has the length it had before, or has
    the length the ledger had at some reset, which is at most the current
    length of the ledger, because the ledger only grows. *)
Theorem gate_length_tracks_ledger ops w w' :
  run ops w = Ok (tt, w') →
  Requests (fs w) `prefix_of` Requests (fs w') ∧
  (length (Acknowledged (fs w')) = length (Acknowledged (fs w)) ∨
   length (Acknowledged (fs w')) ≤ length (Requests (fs w'))).
Proof. intros H. by destruct (run_gate_step _ _ _ H). Qed.

Lemma gate_length_tracks_ledger_witness :
  ∃ w', run demo_writes demo_world = Ok (tt, w') ∧
        Requests (fs demo_world) `prefix_of` Requests (fs w').
Proof.
  eexists. split; [vm_compute; reflexivity|].
  refine (proj1 (gate_length_tracks_ledger demo_writes demo_world _ _)).
  vm_compute; reflexivity.
Defined.

(** X7.  After a reset the slice holds one [false] per request of the
    ledger.  The next call of [ReceiveAcknowledge], if nothing ran in
    between, therefore returns inside its loop and changes nothing, unless
    the ledger is empty, in which case the slice is empty and the call
    resets again. *)
Theorem ReceiveAcknowledge_after_reset w w' :
  ReceiveAcknowledge w = Ok (true, w') →
  Forall (λ b, b = false) (Acknowledged (fs w')) ∧
  ∃ w'', ReceiveAcknowledge w' = Ok (bool_decide (Requests (fs w) = []), w'') ∧
         Acknowledged (fs w'') = Acknowledged (fs w').
Proof.
  rewrite ReceiveAcknowledge_eq. destruct (all_true (Acknowledged (fs w))); [|done].
  intros [= <-]. simpl. split.
  { apply Forall_forall. by intros b [-> _]%elem_of_replicate. }
  rewrite ReceiveAcknowledge_eq. simpl.
  destruct (Requests (fs w)) as [|r rs] eqn:HR; simpl;
    (eexists; split; [done|]); simpl; by rewrite HR.
Qed.

Lemma ReceiveAcknowledge_after_reset_witness :
  ∃ w' w'',
    ReceiveAcknowledge (set_fs (set_Acknowledged (λ _, [true; true])) demo_world)
      = Ok (true, w') ∧
    ReceiveAcknowledge w' = Ok (false, w'').
Proof.
  eexists.
  edestruct (ReceiveAcknowledge_after_reset
               (set_fs (set_Acknowledged (λ _, [true; true])) demo_world))
    as (_ & w'' & H2 & _); [vm_compute; reflexivity|].
  exists w''. split; [vm_compute; reflexivity | exact H2].
Defined.

(** ** The ledger, the deferred array and the log file as traces *)

Ltac effect_cases H :=
  destruct H;
  repeat match goal with
         | H : submitted _ _ _ _ _ |- _ => destruct H
         | H : background _ _ |- _ => destruct H
         end;
  simpl.

(** X8.  The ledger is append-only and records the accesses in the order
    in which they were made: after any run it consists of the requests it
    held before, followed by one request per [ReadFile] or [WriteFile] of
    the run (also for a write whose save fails), with the client and the
    file of the call.  Nothing is ever removed or reordered. *)
Theorem ledger_is_trace ops w w' :
  run ops w = Ok (tt, w') →
  (λ r, (ClientID r, ReqFile r)) <$> Requests (fs w') =
    ((λ r, (ClientID r, ReqFile r)) <$> Requests (fs w)) ++ omap access_of ops.
Proof.
  revert ops w w'. apply run_ind_effect.
  - intros w. simpl. by rewrite app_nil_r.
  - intros o ops w w1 w' Heff _ ->.
    effect_cases Heff;
      repeat match goal with H : Requests _ = _ |- _ => rewrite H; clear H end;
      rewrite ?fmap_app, <- ?app_assoc; done.
Qed.

Lemma ledger_is_trace_witness :
  ∃ w', run demo_writes demo_world = Ok (tt, w') ∧
        (λ r, (ClientID r, ReqFile r)) <$> Requests (fs w') =
          ((λ r, (ClientID r, ReqFile r)) <$> Requests (fs demo_world)) ++
          omap access_of demo_writes.
Proof.
  eexists. split; [vm_compute; reflexivity|].
  refine (ledger_is_trace demo_writes demo_world _ _). vm_compute; reflexivity.
Defined.

(** X9.  The deferred array lists the finished operations in the order in
    which they finished: after any run it consists of what it held before,
    followed by one label per [ReadFile] and per [WriteFile] whose save
    succeeded, naming the operation and the client. *)
Theorem deferred_is_trace ops w w' :
  run ops w = Ok (tt, w') →
  DeferredArray (fs w') = DeferredArray (fs w) ++ omap label_of ops.
Proof.
  revert ops w w'. apply run_ind_effect.
  - intros w. simpl. by rewrite app_nil_r.
  - intros o ops w w1 w' Heff _ ->.
    effect_cases Heff;
      repeat match goal with H : DeferredArray _ = _ |- _ => rewrite H; clear H end;
      rewrite <- ?app_assoc; done.
Qed.

Lemma deferred_is_trace_witness :
  ∃ w, run demo_ops demo_start = Ok (tt, w) ∧
       DeferredArray (fs w) = DeferredArray (fs demo_start) ++ omap label_of demo_ops.
Proof.
  eexists. split; [vm_compute; reflexivity|].
  refine (deferred_is_trace demo_ops demo_start _ _). vm_compute; reflexivity.
Defined.

Lemma run_names ops w w' file f :
  run ops w = Ok (tt, w') → heap w !! file = Some f →
  ∃ f', heap w' !! file = Some f' ∧ Name f' = Name f.
Proof.
  intros Hrun. revert f. revert ops w w' Hrun.
  apply (run_ind_effect (λ _ w w', ∀ f, heap w !! file = Some f →
    ∃ f', heap w' !! file = Some f' ∧ Name f' = Name f)).
  - intros w f Hf. by exists f.
  - intros o ops w w1 w' Heff _ IH f Hf.
    destruct (effect_content _ _ _ _ _ Heff Hf) as (f1 & Hf1 & Hn1 & _).
    destruct (IH f1 Hf1) as (f' & Hf' & Hn'). exists f'. split; [done | congruence].
Qed.

(** X10.  The log file is the trace of the finished operations, in
    admission order and with the timestamps in increasing order: after any
    run it consists of what it held before, followed by one line
    [Client <id> <Action> file <name> at timestamp <ts>] per [ReadFile] and
    per [WriteFile] whose save succeeded, where <ts> is the position of
    the access among all accesses (a write whose save fails uses up a
    timestamp and leaves no line). *)
Theorem log_is_trace ops w w' :
  run ops w = Ok (tt, w') →
  LogFile (fs w') =
    LogFile (fs w) ++ log_lines (heap w') (length (Timestamps (fs w))) ops.
Proof.
  revert ops w w'. apply run_ind_effect.
  - intros w. simpl. by rewrite app_nil_r.
  - intros o ops w w1 w' Heff Hrun ->.
    destruct Heff as [| | | | ? p t w2 f Hsub Hf | ? p ? ? t w2 f Hsub Hf
                      | ? p ? t w2 f Hsub Hf | ? Hbg ]; simpl; try done.
    + destruct (run_names ops (read_done clientID f t w2) w' p f Hrun Hf)
        as (f' & -> & ->).
      destruct Hsub as [Ht HT _ _ HL _ _ _ _ _]. subst t.
      rewrite HL, HT, length_app, Nat.add_1_r, <- app_assoc. done.
    + destruct Hsub as [Ht HT _ _ HL _ _ _ _ _].
      rewrite HL, HT, length_app, Nat.add_1_r.
      destruct (heap w' !! p); done.
    + assert (Hf2 : heap (write_done clientID p f content t w2) !! p
                    = Some (set_Content content f)).
      { simpl. apply list_lookup_insert_eq. by eapply lookup_lt_Some. }
      destruct (run_names ops _ w' p _ Hrun Hf2) as (f' & -> & ->).
      destruct Hsub as [Ht HT _ _ HL _ _ _ _ _]. subst t.
      rewrite HL, HT, length_app, Nat.add_1_r, <- app_assoc. done.
    + destruct Hbg as [_ _ HT HL _ _ _ _ _ _]. by rewrite HL, HT.
Qed.

Lemma log_is_trace_witness :
  ∃ w, run demo_ops demo_start = Ok (tt, w) ∧
       LogFile (fs w) =
         LogFile (fs demo_start) ++
         log_lines (heap w) (length (Timestamps (fs demo_start))) demo_ops.
Proof.
  eexists. split; [vm_compute; reflexivity|].
  refine (log_is_trace demo_ops demo_start _ _). vm_compute; reflexivity.
Defined.

(** ** Reading and reopening *)



(** X12.  A file stays open-able under the pointer it was first given.
    Once [OpenFile] has returned a pointer for a name, every later
    [OpenFile] of that name, after any run of operations (closes
    included) and whatever the storage would answer, returns the same
    pointer; it sets the open flag and keeps the content in memory: the
    file is not loaded again. *)
Theorem OpenFile_same_pointer clientID fileName disk w file w1 ops w2 clientID' disk' :
  registry_ok w →
  OpenFile clientID fileName disk w = Ok (Some file, w1) →
  run ops w1 = Ok (tt, w2) →
  ∃ f w3, heap w2 !! file = Some f ∧
    OpenFile clientID' fileName disk' w2 = Ok (Some file, w3) ∧
    heap w3 = <[file := mkFile (Name f) true (Content f)]> (heap w2) ∧
    fs w3 = fs w2.
Proof.
  intros Hok Hopen Hrun.
  apply OpenFile_inv in Hopen as [Heff Hr].
  destruct (effect_registry _ _ _ Heff Hok) as (Hok1 & Hsub1 & _).
  assert (HF1 : Files (fs w1) !! fileName = Some file).
  { destruct (Files (fs w) !! fileName) as [p|] eqn:HF.
    - injection Hr as ->. by eapply lookup_weaken.
    - inversion Heff; subst; try congruence.
      simpl. injection Hr as ->. apply lookup_insert_eq. }
  destruct (run_registry _ _ _ Hrun Hok1) as (Hok2 & Hsub2 & _).
  assert (HF2 : Files (fs w2) !! fileName = Some file) by (by eapply lookup_weaken).
  pose proof HF2 as Hname. apply Hok2 in Hname. rewrite list_lookup_fmap in Hname.
  destruct (heap w2 !! file) as [f|] eqn:Hf; simpl in Hname; [|done].
  exists f, (open_again clientID' fileName file f w2).
  split; [done|]. split; [by apply OpenFile_again | done].
Qed.

Lemma registry_ok_demo_world : registry_ok demo_world.
Proof.
  intros name file. unfold demo_world. simpl.
  destruct (decide (name = "file1.txt")) as [->|Hne].
  - rewrite lookup_singleton_eq.
    destruct file as [|?]; simpl; rewrite ?lookup_nil; split; congruence.
  - rewrite lookup_singleton_ne by done.
    destruct file as [|?]; simpl; rewrite ?lookup_nil; split; congruence.
Qed.

Lemma OpenFile_same_pointer_witness :
  ∃ w2, run [OpCloseFile 0; OpWriteFile 2 0 "b" None]
          (open_again 1 "file1.txt" 0
             (mkFile "file1.txt" true "Content written by Client 1") demo_world)
        = Ok (tt, w2) ∧
        ∃ f w3, heap w2 !! 0 = Some f ∧
                OpenFile 3 "file1.txt" (Failure "gone") w2 = Ok (Some 0, w3).
Proof.
  eexists. split; [vm_compute; reflexivity|].
  match goal with
  | |- ∃ f w3, heap ?w2 !! 0 = Some f ∧ _ =>
      destruct (OpenFile_same_pointer 1 "file1.txt" (Failure "gone") demo_world 0
                  (open_again 1 "file1.txt" 0
                     (mkFile "file1.txt" true "Content written by Client 1") demo_world)
                  [OpCloseFile 0; OpWriteFile 2 0 "b" None] w2 3 (Failure "gone"))
        as (f & w3 & Hf & H3 & _);
        [exact registry_ok_demo_world | vm_compute; reflexivity | vm_compute; reflexivity |]
  end.
  exists f, w3. split; [exact Hf | exact H3].
Defined.

(** ** Executions of [main]: one step of one client *)

Lemma OpenFile_registers clientID fileName disk w file w' :
  OpenFile clientID fileName disk w = Ok (Some file, w') →
  Files (fs w') !! fileName = Some file.
Proof.
  intros [Heff Hr]%OpenFile_inv.
  destruct (Files (fs w) !! fileName) as [p|] eqn:HF.
  - injection Hr as ->. inversion Heff; subst; simpl; congruence.
  - inversion Heff; subst; try congruence.
    simpl. injection Hr as ->. apply lookup_insert_eq.
Qed.

(** What one step of client [i] of [main] is: an operation of the run
    with the client's id and the name ["file1.txt"], and the next
    position of the client. *)
Lemma client_step_inv i rd wr at_ w at' w' :
  client_step (client_of i) rd wr at_ w = Ok (at', w') →
  match at_ with
  | AtOpenFile =>
      effect w (OpOpenFile (Z.of_nat i + 1) "file1.txt" rd) w' ∧
      match at' with
      | AtWriteFile file => Files (fs w') !! "file1.txt" = Some file
      | Returned => ∃ err, rd = Failure err
      | _ => False
      end
  | AtWriteFile file =>
      effect w (OpWriteFile (Z.of_nat i + 1) file
                  ("Content written by Client " +:+ pretty (Z.of_nat i + 1)%Z) wr) w' ∧
      at' = AtReadFile file
  | AtReadFile file =>
      effect w (OpReadFile (Z.of_nat i + 1) file) w' ∧ at' = AtCloseFile file
  | AtCloseFile file => effect w (OpCloseFile file) w' ∧ at' = Returned
  | Returned => w' = w ∧ at' = Returned
  end.
Proof.
  destruct at_ as [|file|file|file|]; unfold client_step.
  - intros (r & w1 & Hopen & Hret)%bind_Ok.
    change (ID (client_of i)) with (Z.of_nat i + 1)%Z in Hopen.
    change (FileName (client_of i)) with "file1.txt" in Hopen.
    pose proof (OpenFile_inv _ _ _ _ _ _ Hopen) as [Heff Hr].
    destruct r as [file|]; injection Hret as <- <-; (split; [done|]).
    + by eapply OpenFile_registers.
    + destruct (Files (fs w) !! "file1.txt"); [done|].
      destruct rd as [c|err]; [done | by exists err].
  - intros ([] & w1 & Hw & [= <- <-])%bind_Ok. split; [|done].
    by apply (exec_inv (OpWriteFile _ _ _ _)).
  - intros ([] & w1 & Hr & [= <- <-])%bind_Ok. split; [|done].
    by apply (exec_inv (OpReadFile _ _)).
  - intros ([] & w1 & Hc & [= <- <-])%bind_Ok. split; [|done].
    by apply (exec_inv (OpCloseFile _)).
  - by intros [= <- <-].
Qed.

(** Induction over an execution of [main], one turn at a time. *)
Lemma interleave_ind_inv (I : list pc → World → Prop) :
  (∀ pcs w w', I pcs w → Gosched w = Ok (tt, w') → I pcs w') →
  (∀ i rd wr at_ at' pcs w w', I pcs w → pcs !! i = Some at_ →
     client_step (client_of i) rd wr at_ w = Ok (at', w') → I (<[i := at']> pcs) w') →
  ∀ turns pcs w pcs' w', I pcs w → interleave turns pcs w = Ok (pcs', w') → I pcs' w'.
Proof.
  intros Hbg Hstep. induction turns as [|t turns IH]; intros pcs w pcs' w' HI; simpl.
  - by intros [= <- <-].
  - intros (pcs1 & w1 & Hturn & Hrest)%bind_Ok. eapply IH; [|exact Hrest].
    destruct t as [i rd wr|]; simpl in Hturn.
    + destruct (pcs !! i) as [at_|] eqn:Hi.
      * apply bind_Ok in Hturn as (at' & w2 & Hcs & [= <- <-]). by eapply Hstep.
      * by injection Hturn as <- <-.
    + apply bind_Ok in Hturn as ([] & w2 & Hs & [= <- <-]). by eapply Hbg.
Qed.

(** ** Executions of [main]: one shared file *)

Lemma effect_Files w o w' :
  effect w o w' →
  Files (fs w') = Files (fs w) ∨
  ∃ c n d, o = OpOpenFile c n d ∧ Files (fs w') = <[n := length (heap w)]> (Files (fs w)).
Proof.
  destruct 1 as [| c n d ? | | | ? ? ? ? ? Hsub | ? ? ? ? ? ? ? Hsub | ? ? ? ? ? ? Hsub
                 | ? Hbg]; simpl; try by left.
  - right. by exists c, n, (Success d).
  - left. apply (sub_Files _ _ _ _ _ Hsub).
  - left. apply (sub_Files _ _ _ _ _ Hsub).
  - left. apply (sub_Files _ _ _ _ _ Hsub).
  - left. apply (bg_Files _ _ Hbg).
Qed.

Lemma effect_Requests w o w' r :
  effect w o w' → r ∈ Requests (fs w') →
  r ∈ Requests (fs w) ∨ access_of o = Some (ClientID r, ReqFile r).
Proof.
  destruct 1 as [| | | | ? ? ? ? ? Hsub | ? ? ? ? ? ? ? Hsub | ? ? ? ? ? ? Hsub
                 | ? Hbg]; simpl; try by left.
  1-3: rewrite (sub_Requests _ _ _ _ _ Hsub);
       (intros [Hin|Hin]%elem_of_app; [by left|]);
       apply list_elem_of_singleton in Hin as ->; by right.
  rewrite (bg_Requests _ _ Hbg). by left.
Qed.

Lemma step_shared_file i rd wr at_ at' pcs w w' :
  shared_file pcs w → pcs !! i = Some at_ →
  client_step (client_of i) rd wr at_ w = Ok (at', w') →
  shared_file (<[i := at']> pcs) w'.
Proof.
  intros [Hreg Hkeys Hhandles Hreqs] Hi Hstep.
  assert (Hlt : i < length pcs) by (by eapply lookup_lt_Some).
  apply client_step_inv in Hstep.
  assert (∃ o, effect w o w' ∧
            (∀ c n d, o = OpOpenFile c n d → n = "file1.txt") ∧
            (∀ c file, access_of o = Some (c, file) →
               Files (fs w) !! "file1.txt" = Some file) ∧
            ∀ file, handle at' = Some file → Files (fs w') !! "file1.txt" = Some file)
    as (o & Heff & Hname & Hacc & Hnew).
  { destruct at_ as [|file|file|file|].
    - destruct Hstep as [Heff Hat']. eexists. split; [exact Heff|].
      split; [by intros ? ? ? [= _ <- _]|]. split; [done|].
      intros file Hh. destruct at'; simpl in Hh; try done. by injection Hh as <-.
    - destruct Hstep as [Heff ->]. eexists. split; [exact Heff|].
      pose proof (Hhandles i _ file Hi eq_refl) as HF.
      split; [done|]. split; [by intros ? ? [= _ <-]|].
      intros ? [= <-]. destruct (effect_Files _ _ _ Heff) as [->|(? & ? & ? & ? & _)]; done.
    - destruct Hstep as [Heff ->]. eexists. split; [exact Heff|].
      pose proof (Hhandles i _ file Hi eq_refl) as HF.
      split; [done|]. split; [by intros ? ? [= _ <-]|].
      intros ? [= <-]. destruct (effect_Files _ _ _ Heff) as [->|(? & ? & ? & ? & _)]; done.
    - destruct Hstep as [Heff ->]. eexists. split; [exact Heff|]. done.
    - destruct Hstep as [-> ->]. exists OpGosched. split; [by apply eff_sched|]. done. }
  destruct (effect_registry _ _ _ Heff Hreg) as (Hreg' & Hsub & _).
  split.
  - done.
  - intros name file HF.
    destruct (effect_Files _ _ _ Heff) as [HE|(c & n & d & -> & HE)]; rewrite HE in HF.
    + by eapply Hkeys.
    + destruct (decide (n = name)) as [<-|Hne]; [by eapply Hname|].
      rewrite lookup_insert_ne in HF by done. by eapply Hkeys.
  - intros j a file [(-> & -> & _)|(_ & Hj)]%list_lookup_insert_Some Hh.
    + by apply Hnew.
    + eapply lookup_weaken; [|exact Hsub]. by eapply Hhandles.
  - intros r Hr. eapply lookup_weaken; [|exact Hsub].
    destruct (effect_Requests _ _ _ _ Heff Hr) as [Hold|Hacc']; [by apply Hreqs|].
    by eapply Hacc.
Qed.

Lemma background_shared_file pcs w w' :
  shared_file pcs w → Gosched w = Ok (tt, w') → shared_file pcs w'.
Proof.
  intros [Hreg Hkeys Hhandles Hreqs] Hbg%Gosched_background.
  destruct Hbg as [HF HR _ _ _ Hh _ _ _ _]. split.
  - unfold registry_ok. by rewrite HF, Hh.
  - by rewrite HF.
  - by rewrite HF.
  - by rewrite HF, HR.
Qed.

(** X13.  All clients of [main] share one [File] object.  In every state
    an execution of [main] reaches, at most one object has been allocated,
    the [Files] map holds at most the entry of ["file1.txt"], for pointer
    0; every client that holds a file holds pointer 0, and every request
    of the ledger is for pointer 0.  Only the first successful [OpenFile]
    loads the file; the writes of all clients go to the same content. *)
Theorem main_shares_one_file numClients sch turns pcs w :
  main numClients sch turns = Ok (pcs, w) →
  length (heap w) ≤ 1 ∧
  (∀ name file, Files (fs w) !! name = Some file → name = "file1.txt" ∧ file = 0) ∧
  (∀ i at_ file, pcs !! i = Some at_ → handle at_ = Some file → file = 0) ∧
  (∀ r, r ∈ Requests (fs w) → ReqFile r = 0).
Proof.
  unfold main. destruct (start numClients sch) as [w0|e] eqn:Hstart; [|done].
  intros Hrun.
  assert (shared_file pcs w) as [Hreg Hkeys Hhandles Hreqs].
  { revert Hrun. apply (interleave_ind_inv shared_file).
    - intros. by eapply background_shared_file.
    - intros. by eapply step_shared_file.
    - apply start_inv in Hstart as [_ ->]. split; simpl.
      + intros name file. simpl. by rewrite lookup_empty.
      + intros name file. by rewrite lookup_empty.
      + intros i a file [-> _]%lookup_replicate. done.
      + intros r Hr. by apply elem_of_nil in Hr. }
  assert (Hzero : ∀ file, Files (fs w) !! "file1.txt" = Some file → file = 0).
  { intros file HF.
    destruct (heap w) as [|f0 h] eqn:Hh.
    - apply Hreg in HF. by rewrite Hh, fmap_nil, lookup_nil in HF.
    - assert (Files (fs w) !! Name f0 = Some 0) as H0.
      { apply Hreg. by rewrite Hh. }
      rewrite (Hkeys _ _ H0) in H0. congruence. }
  split; [|split; [|split]].
  - destruct (heap w) as [|f0 [|f1 h]] eqn:Hh; simpl; try lia.
    assert (Files (fs w) !! Name f1 = Some 1) as H1.
    { apply Hreg. by rewrite Hh. }
    rewrite (Hkeys _ _ H1) in H1. by apply Hzero in H1.
  - intros name file HF. pose proof (Hkeys _ _ HF) as ->. split; [done | by apply Hzero].
  - intros i a file Hi Hh. apply Hzero. by eapply Hhandles.
  - intros r Hr. apply Hzero. by apply Hreqs.
Qed.

Lemma main_shares_one_file_witness :
  ∃ pcs w, main 3 demo_sched demo_turns = Ok (pcs, w) ∧ length (heap w) ≤ 1.
Proof.
  eexists. eexists. split; [vm_compute; reflexivity|].
  refine (proj1 (main_shares_one_file 3 demo_sched demo_turns _ _ _)).
  vm_compute; reflexivity.
Defined.

(** ** Executions of [main]: how many accesses *)

Lemma sum_list_insert (f : pc → nat) (pcs : list pc) i a b :
  pcs !! i = Some a →
  sum_list (f <$> <[i := b]> pcs) + f a = sum_list (f <$> pcs) + f b.
Proof.
  revert i. induction pcs as [|x pcs IH]; intros [|i] Hi; simpl in *; try done.
  - injection Hi as ->. generalize (f a) (f b) (sum_list (f <$> pcs)). intros; lia.
  - specialize (IH i Hi). rewrite <- !Nat.add_assoc. f_equal. exact IH.
Qed.

Lemma effect_Timestamps_length w o w' :
  effect w o w' →
  length (Timestamps (fs w')) =
    length (Timestamps (fs w)) + (if is_access o then 1 else 0).
Proof.
  destruct 1 as [| | | | ? ? ? ? ? Hsub | ? ? ? ? ? ? ? Hsub | ? ? ? ? ? ? Hsub
                 | ? Hbg]; simpl; try lia.
  1-3: rewrite (sub_Timestamps _ _ _ _ _ Hsub), length_app; simpl; lia.
  rewrite (bg_Timestamps _ _ Hbg). lia.
Qed.

(** X14.  No client of [main] takes more than two timestamps.  In every
    state an execution of [main] reaches, the number of timestamps taken,
    which is also the length of the ledger, is at most twice the number of
    clients, and the log file and the deferred array are no longer than
    that. *)
Theorem main_at_most_two_accesses numClients sch turns pcs w :
  main numClients sch turns = Ok (pcs, w) →
  length (Timestamps (fs w)) ≤ 2 * Z.to_nat numClients ∧
  length (Requests (fs w)) = length (Timestamps (fs w)) ∧
  length (LogFile (fs w)) ≤ length (Timestamps (fs w)) ∧
  length (DeferredArray (fs w)) ≤ length (Timestamps (fs w)).
Proof.
  intros Hmain.
  destruct (main_run _ _ _ _ _ Hmain) as (w0 & ops & Hstart & Hrun & _).
  pose proof Hstart as [_ ->]%start_inv.
  destruct (run_clock _ _ _ Hrun) as [[_ Hreq] _]; [done|].
  apply (f_equal length) in Hreq. rewrite length_fmap in Hreq.
  revert Hmain. unfold main. rewrite Hstart. intros Hint.
  set (I := λ (pcs : list pc) (w : World),
         length (Timestamps (fs w)) + sum_list (budget <$> pcs) ≤ 2 * length pcs ∧
         length (LogFile (fs w)) ≤ length (Timestamps (fs w)) ∧
         length (DeferredArray (fs w)) ≤ length (Timestamps (fs w))).
  assert (I pcs w) as (Hb & Hl & Hd).
  { revert Hint. apply (interleave_ind_inv I).
    - intros ps w1 w2 HI Hbg%Gosched_background.
      destruct Hbg as [_ _ HT HL HD _ _ _ _ _]. unfold I. by rewrite HT, HL, HD.
    - intros i rd wr at_ at' ps w1 w2 (Hb & Hl & Hd) Hi Hstep.
      apply client_step_inv in Hstep.
      pose proof (sum_list_insert budget ps i at_ at' Hi) as Hsum.
      unfold I. rewrite length_insert.
      destruct at_ as [|file|file|file|].
      + destruct Hstep as [Heff Hat'].
        pose proof (effect_Timestamps_length _ _ _ Heff) as HT.
        destruct (effect_logs _ _ _ Heff) as [HL HD]. simpl in HT, HL, HD.
        destruct at'; cbn [budget taken] in *; try done; lia.
      + destruct Hstep as [Heff ->].
        pose proof (effect_Timestamps_length _ _ _ Heff) as HT.
        destruct (effect_logs _ _ _ Heff) as [HL HD]. simpl in HT, HL, HD.
        destruct wr; cbn [budget taken] in *; lia.
      + destruct Hstep as [Heff ->].
        pose proof (effect_Timestamps_length _ _ _ Heff) as HT.
        destruct (effect_logs _ _ _ Heff) as [HL HD]. simpl in HT, HL, HD.
        cbn [budget taken] in *. lia.
      + destruct Hstep as [Heff ->].
        pose proof (effect_Timestamps_length _ _ _ Heff) as HT.
        destruct (effect_logs _ _ _ Heff) as [HL HD]. simpl in HT, HL, HD.
        cbn [budget taken] in *. lia.
      + destruct Hstep as [-> ->]. cbn [budget taken] in *. lia.
    - unfold I. simpl. split; [|lia].
      rewrite length_replicate, fmap_replicate, sum_list_replicate. simpl. lia. }
  assert (Hlen : length pcs = Z.to_nat numClients).
  { apply interleave_run in Hint as [-> _]. by rewrite length_replicate. }
  rewrite Hlen in Hb. split; [lia|]. done.
Qed.

Lemma main_at_most_two_accesses_witness :
  ∃ pcs w, main 3 demo_sched demo_turns = Ok (pcs, w) ∧
           length (Timestamps (fs w)) ≤ 2 * Z.to_nat 3.
Proof.
  eexists. eexists. split; [vm_compute; reflexivity|].
  refine (proj1 (main_at_most_two_accesses 3 demo_sched demo_turns _ _ _)).
  vm_compute; reflexivity.
Defined.

Lemma interleave_all_ok turns pcs w pcs' w' :
  Forall turn_ok turns →
  interleave turns pcs w = Ok (pcs', w') →
  length (Timestamps (fs w)) = sum_list (taken <$> pcs) →
  length (LogFile (fs w)) = sum_list (taken <$> pcs) →
  length (DeferredArray (fs w)) = sum_list (taken <$> pcs) →
  length (Timestamps (fs w')) = sum_list (taken <$> pcs') ∧
  length (LogFile (fs w')) = sum_list (taken <$> pcs') ∧
  length (DeferredArray (fs w')) = sum_list (taken <$> pcs').
Proof.
  intros Hok. revert pcs w.
  induction Hok as [|t turns Ht _ IH]; intros pcs w; simpl.
  - by intros [= <- <-].
  - intros (pcs1 & w1 & Hturn & Hrest)%bind_Ok HT HL HD.
    eapply IH; [exact Hrest|..];
      destruct t as [i rd wr|]; simpl in Hturn.
    all: try (apply bind_Ok in Hturn as ([] & w2 & Hs%Gosched_background & [= <- <-]);
              destruct Hs as [_ _ HT' HL' HD' _ _ _ _ _]; congruence).
    all: destruct (pcs !! i) as [at_|] eqn:Hi;
      [|injection Hturn as <- <-; done].
    all: apply bind_Ok in Hturn as (at' & w2 & Hstep & [= <- <-]).
    all: apply client_step_inv in Hstep.
    all: pose proof (sum_list_insert taken pcs i at_ at' Hi) as Hsum.
    all: destruct rd as [c|err]; [|done]; destruct wr as [err|]; [done|].
    all: destruct at_ as [|file|file|file|];
      [destruct Hstep as [Heff Hat'] | destruct Hstep as [Heff ->]
      | destruct Hstep as [Heff ->] | destruct Hstep as [Heff ->]
      | destruct Hstep as [-> ->]; cbn [budget taken] in *; lia].
    all: pose proof (effect_Timestamps_length _ _ _ Heff) as HT';
      destruct (effect_logs _ _ _ Heff) as [HL' HD']; simpl in HT', HL', HD'.
    all: try (destruct at'; cbn [budget taken] in *; try done; [lia | by destruct Hat']).
    all: cbn [budget taken] in *; lia.
Qed.

(** X15.  The scenario of the program.  When no load and no save fails
    and all clients have returned, every client has written once and read
    once: the timestamps taken are exactly 1, ..., 2 * numClients, and the
    log file and the deferred array have 2 * numClients entries each. *)
Theorem main_complete_run numClients sch turns pcs w :
  main numClients sch turns = Ok (pcs, w) →
  Forall turn_ok turns →
  Forall (λ at_, at_ = Returned) pcs →
  Timestamps (fs w) = seqZ 1 (2 * numClients) ∧
  length (LogFile (fs w)) = 2 * Z.to_nat numClients ∧
  length (DeferredArray (fs w)) = 2 * Z.to_nat numClients.
Proof.
  intros Hmain Hok Hret.
  destruct (main_run _ _ _ _ _ Hmain) as (w0 & ops & Hstart & Hrun & _).
  pose proof Hstart as [Hn ->]%start_inv.
  destruct (run_clock _ _ _ Hrun) as [[Hseq _] _]; [done|].
  revert Hmain. unfold main. rewrite Hstart. intros Hint.
  assert (Hlen : length pcs = Z.to_nat numClients).
  { apply interleave_run in Hint as [-> _]. by rewrite length_replicate. }
  assert (Hzero : sum_list (taken <$> replicate (Z.to_nat numClients) AtOpenFile) = 0).
  { rewrite fmap_replicate, sum_list_replicate. simpl. lia. }
  apply interleave_all_ok in Hint as (HT & HL & HD); simpl; try done.
  assert (Hsum : sum_list (taken <$> pcs) = 2 * length pcs).
  { clear -Hret. induction Hret as [|a l -> _ IH]; [done|].
    change (sum_list (taken <$> Returned :: l)) with (2 + sum_list (taken <$> l)).
    rewrite IH. simpl. lia. }
  rewrite Hsum, Hlen in HT, HL, HD.
  split; [|done]. rewrite Hseq, HT. f_equal. lia.
Qed.

Lemma main_complete_run_witness :
  ∃ pcs w, main 3 demo_sched demo_turns = Ok (pcs, w) ∧
           length (LogFile (fs w)) = 2 * Z.to_nat 3.
Proof.
  eexists. eexists. split; [vm_compute; reflexivity|].
  refine (proj1 (proj2 (main_complete_run 3 demo_sched demo_turns _ _ _ _ _))).
  - vm_compute; reflexivity.
  - repeat constructor.
  - repeat constructor.
Defined.

(** ** The space-time diagram *)

Lemma chars_app s1 s2 : chars (s1 +:+ s2) = chars s1 ++ chars s2.
Proof. induction s1 as [|a s1 IH]; simpl; [done | by rewrite IH]. Qed.

Lemma length_chars s : length (chars s) = String.length s.
Proof. induction s as [|a s IH]; simpl; [done | by rewrite IH]. Qed.

Lemma append_times_chars n a s :
  chars (append_times n (String a EmptyString) s) =
    chars s ++ replicate (Z.to_nat n) a.
Proof.
  unfold append_times. induction (Z.to_nat n) as [|k IH]; simpl.
  - by rewrite app_nil_r.
  - rewrite chars_app, IH. simpl.
    rewrite <- app_assoc. f_equal.
    change [a] with (replicate 1 a). rewrite <- replicate_add.
    by rewrite Nat.add_1_r.
Qed.

(** X16.  The diagram line of [printSpaceTimeDiagram].  For a start time
    with hour below 24, minute and second below 60, and a duration of
    [seconds] ≥ 0 whole seconds, the second string written is a line of
    [spacesBefore] spaces, then [seconds] dashes, then spaces up to
    column 86400 (one column per second of the day), then a line feed.
    The line has exactly 86400 columns when the operation ends within the
    day; if it runs past midnight the third loop does nothing and the line
    is longer than 86400 columns. *)
Theorem printSpaceTimeDiagram_line clientID startTime endTime seconds :
  (0 ≤ Hour startTime < 24)%Z → (0 ≤ Minute startTime < 60)%Z →
  (0 ≤ Second startTime < 60)%Z → (0 ≤ seconds)%Z →
  let before := (Hour startTime * 3600 + Minute startTime * 60 + Second startTime)%Z in
  ∃ header line,
    printSpaceTimeDiagram clientID startTime endTime seconds = [header; line +:+ nl; nl] ∧
    chars line =
      replicate (Z.to_nat before) space ++ replicate (Z.to_nat seconds) dash ++
      replicate (Z.to_nat (86400 - before - seconds)) space ∧
    Z.of_nat (String.length line) = Z.max 86400 (before + seconds).
Proof.
  intros Hh Hm Hs Hd before. eexists _, _. split; [reflexivity|].
  assert (Hchars : ∀ s, chars
            (append_times (24 * 3600 - before - seconds) " "
               (append_times seconds "-" (append_times before " " s))) =
          chars s ++
          replicate (Z.to_nat before) space ++ replicate (Z.to_nat seconds) dash ++
          replicate (Z.to_nat (86400 - before - seconds)) space).
  { intros s.
    change " " with (String space EmptyString).
    change "-" with (String dash EmptyString).
    rewrite !append_times_chars, <- !app_assoc. done. }
  split; [exact (Hchars EmptyString)|].
  pose proof (f_equal length (Hchars EmptyString)) as Hlen.
  rewrite length_chars in Hlen. simpl in Hlen.
  rewrite !length_app, !length_replicate in Hlen.
  etrans; [exact (f_equal Z.of_nat Hlen)|]. lia.
Qed.

Lemma printSpaceTimeDiagram_line_witness :
  ∃ header line,
    printSpaceTimeDiagram 1 (mkTime 23 59 58) (mkTime 0 0 3) 5 = [header; line +:+ nl; nl] ∧
    Z.of_nat (String.length line) = Z.max 86400 ((23 * 3600 + 59 * 60 + 58) + 5).
Proof.
  destruct (printSpaceTimeDiagram_line 1 (mkTime 23 59 58) (mkTime 0 0 3) 5)
    as (header & line & H1 & _ & H3); simpl; try lia.
  exists header, line. split; [exact H1 | exact H3].
Defined.

(** ** The final report *)

Lemma for_range_from_Printf i ops w :
  for_range_from i ops (λ i operation,
      Printf (pretty (i + 1)%Z +:+ ". " +:+ operation +:+ nl)) w =
    Ok (tt, mkWorld (fs w) (heap w) (stdout w ++ report_lines i ops)
              (goroutines w) (sched w) (history w)).
Proof.
  revert i w. induction ops as [|o ops IH]; intros i w.
  - simpl. unfold ret, report_lines. simpl. rewrite app_nil_r. by destruct w.
  - simpl. unfold bind, Printf, modify. rewrite IH. simpl.
    rewrite <- app_assoc. do 4 f_equal.
    unfold report_lines. simpl. f_equal.
    + by rewrite Z.add_0_r.
    + apply imap_ext. intros k x _. simpl. do 3 f_equal. lia.
Qed.

(** X17.  The final report of [main] prints one header line and then one
    line per label of the deferred array, in order, each prefixed with its
    position counted from 1; it changes nothing but standard output. *)
Theorem report_prints_numbered_labels w :
  ∃ w', report w = Ok (tt, w') ∧
    stdout w' = stdout w ++ ("Deferred Array Operations:" +:+ nl)
                  :: imap (λ k operation, pretty (Z.of_nat k + 1)%Z +:+ ". " +:+ operation +:+ nl)
                       (DeferredArray (fs w)) ∧
    length (stdout w') = length (stdout w) + 1 + length (DeferredArray (fs w)) ∧
    fs w' = fs w ∧ heap w' = heap w ∧ goroutines w' = goroutines w.
Proof.
  eexists. split.
  - unfold report, bind, Println, Printf, modify, gets. simpl.
    rewrite for_range_from_Printf. reflexivity.
  - simpl. rewrite <- app_assoc. simpl. split; [|split; [|done]].
    + do 2 f_equal.
    + rewrite !length_app. simpl. unfold report_lines. rewrite length_imap. lia.
Qed.

(** ** The program of [cls.go] *)

(** X18.  [SendRequest] of [cls.go] has no bounds check.  For a client id
    within the bounds of [Acknowledged] it returns, having set exactly that
    slot; for every other id, negative or not below the length, it panics
    with an index out of range.  In particular it panics for every id as
    long as the slice is empty, as [main] of [cls.go] creates it. *)
Theorem Cls_SendRequest_unguarded clientID request w :
  if bool_decide (0 ≤ ClientID request < Z.of_nat (length (Acknowledged (fs w))))%Z
  then ∃ w', Cls.SendRequest clientID request w = Ok (tt, w') ∧
             Acknowledged (fs w') =
               <[Z.to_nat (ClientID request) := true]> (Acknowledged (fs w))
  else Cls.SendRequest clientID request w =
         Panic (IndexOutOfRange (ClientID request) (length (Acknowledged (fs w)))).
Proof.
  unfold Cls.SendRequest, bind, record, Printf, modify, gets, slice_store. simpl.
  case_bool_decide; [|done]. by eexists.
Qed.

Lemma Cls_poll_loop_panics clientID rs w k ks sch' c r :
  Acknowledged (fs w) = [] →
  sched w = (k :: ks) :: sch' →
  goroutines w !! k = Some (c, r) →
  others clientID rs ≠ [] →
  for_range rs (Cls.poll_body clientID) w = Panic (IndexOutOfRange (ClientID r) 0).
Proof.
  intros Hack Hsched Hk. induction rs as [|x rs IH]; [done|].
  unfold others. rewrite filter_cons. simpl.
  destruct (decide (ClientID x ≠ clientID)) as [Hne|Heq]; intros Hothers.
  - apply bind_Panic. unfold Cls.poll_body. rewrite bool_decide_eq_true_2 by done.
    apply bind_Panic. unfold Cls.Gosched. rewrite Hsched. simpl.
    apply bind_Panic. unfold Cls.run_goroutine. simpl. rewrite Hk.
    rewrite Cls_SendRequest_out_of_bounds; simpl; rewrite Hack; [done | simpl; lia].
  - unfold bind. unfold Cls.poll_body at 1. rewrite bool_decide_eq_false_2 by done.
    unfold ret at 1. by apply IH.
Qed.

Lemma Cls_submit_panics clientID file w r0 rest sch' :
  Acknowledged (fs w) = [] →
  others clientID (Requests (fs w)) = r0 :: rest →
  sched w = [length (goroutines w)] :: sch' →
  Cls.submit clientID file w = Panic (IndexOutOfRange (ClientID r0) 0).
Proof.
  intros Hack Hothers Hsched. unfold Cls.submit.
  unfold bind at 1, modify_fs at 1, modify at 1.
  unfold bind at 1, gets at 1.
  unfold bind at 1. rewrite go_loop.
  unfold bind at 1, gets at 1. simpl.
  assert (Ho : others clientID (Requests (fs w) ++ [mkRequest clientID file 0])
               = r0 :: rest).
  { unfold others in *. rewrite filter_app, Hothers, filter_cons. simpl.
    destruct (decide (clientID ≠ clientID)); [done | by rewrite app_nil_r]. }
  rewrite Ho.
  apply (Cls_poll_loop_panics clientID _ _ (length (goroutines w)) [] sch' clientID r0);
    simpl; try done.
  - rewrite lookup_app_r by done. by rewrite Nat.sub_diag.
  - by rewrite Ho.
Qed.

(** X19.  In [cls.go] a read or write can crash the program.  As long as
    [Acknowledged] is empty (as [main] creates it), if the ledger holds a
    request of another client and the first goroutine the call spawns runs
    before the call polls for the first time, [WriteFile] and [ReadFile]
    panic with an index out of range for the client id of that request:
    the notification arrives at a slice that has no slot for it. *)
Theorem Cls_access_panics_when_notified_early clientID file content disk w r0 rest sch' :
  Acknowledged (fs w) = [] →
  others clientID (Requests (fs w)) = r0 :: rest →
  sched w = [length (goroutines w)] :: sch' →
  Cls.WriteFile clientID file content disk w = Panic (IndexOutOfRange (ClientID r0) 0) ∧
  Cls.ReadFile clientID file w = Panic (IndexOutOfRange (ClientID r0) 0).
Proof.
  intros Hack Hothers Hsched.
  pose proof (Cls_submit_panics clientID file w r0 rest sch' Hack Hothers Hsched) as Hp.
  split; by apply bind_Panic.
Qed.

Lemma Cls_access_panics_when_notified_early_witness :
  Cls.WriteFile 2 0 "Deepan is good boy" None
    (mkWorld (mkDFS {["file1.txt" := 0]} [mkRequest 1 0 0] [] [] [] [])
       [mkFile "file1.txt" true "Deepan is bad boy"] [] [] [[0]] [])
  = Panic (IndexOutOfRange 1 0).
Proof.
  refine (proj1 (Cls_access_panics_when_notified_early 2 0 "Deepan is good boy" None
    (mkWorld (mkDFS {["file1.txt" := 0]} [mkRequest 1 0 0] [] [] [] [])
       [mkFile "file1.txt" true "Deepan is bad boy"] [] [] [[0]] [])
    (mkRequest 1 0 0) [] [] _ _ _)); vm_compute; reflexivity.
Defined.

(** X20.  Whether [main] of [cls.go] finishes depends on the scheduler.
    There is an interleaving in which all three clients open, write, read
    and close without panic, and one in which the program panics with
    index 1 out of range for the empty slice, during the write of the
    second client. *)
Theorem Cls_main_outcomes :
  (∃ sch turns pcs w, Cls.main sch turns = Ok (pcs, w) ∧
                      pcs = [Returned; Returned; Returned]) ∧
  (∃ sch turns, Cls.main sch turns = Panic (IndexOutOfRange 1 0)).
Proof.
  split.
  - exists [], demo_turns. eexists _, _. split; vm_compute; reflexivity.
  - exists [[0]], [Step 0 (Success "old") None; Step 0 (Success "old") None;
                   Step 1 (Success "old") None; Step 1 (Success "old") None].
    vm_compute. reflexivity.
Qed.

(** ** The only sources of panic *)

Lemma ids_nonneg_notifiable clientID w : ids_nonneg w → notifiable clientID w.
Proof. intros [Hpool Hreq]. split; [done|]. intros r Hr _. by apply Hreq. Qed.

Lemma exec_returns o w :
  registry_ok w → ids_nonneg w → op_ok (length (heap w)) o →
  ∃ w', exec o w = Ok (tt, w').
Proof.
  intros Hreg Hids Hop.
  destruct o as [c name disk|file|c file|c file content disk|]; simpl in *.
  - destruct (Files (fs w) !! name) as [file|] eqn:HF.
    + pose proof HF as Hname. apply Hreg in Hname. rewrite list_lookup_fmap in Hname.
      destruct (heap w !! file) as [f|] eqn:Hf; simpl in Hname; [|done].
      eexists. unfold bind. by rewrite (OpenFile_again _ _ disk _ _ _ HF Hf).
    + destruct disk as [content|err]; eexists; unfold bind.
      * by rewrite (OpenFile_created _ _ _ _ HF).
      * by rewrite (OpenFile_failure _ _ _ _ HF).
  - rewrite CloseFile_eq. destruct (lookup_lt_is_Some_2 (heap w) file Hop) as [f ->].
    by eexists.
  - destruct Hop as [Hc Hfile].
    destruct (submit_returns c file w (ids_nonneg_notifiable c w Hids)) as (t & w1 & Hsub).
    pose proof (sub_heap _ _ _ _ _ (submit_spec _ _ _ _ _ Hsub)) as Hheap.
    destruct (lookup_lt_is_Some_2 (heap w1) file) as [f Hf]; [by rewrite Hheap|].
    eexists. unfold ReadFile, bind at 1. rewrite Hsub.
    unfold bind at 1, load. rewrite Hf. reflexivity.
  - destruct Hop as [Hc Hfile].
    destruct (submit_returns c file w (ids_nonneg_notifiable c w Hids)) as (t & w1 & Hsub).
    pose proof (sub_heap _ _ _ _ _ (submit_spec _ _ _ _ _ Hsub)) as Hheap.
    destruct (lookup_lt_is_Some_2 (heap w1) file) as [f Hf]; [by rewrite Hheap|].
    destruct disk as [err|]; eexists; unfold WriteFile, bind at 1; rewrite Hsub;
      unfold bind at 1, store; rewrite Hf;
      unfold bind at 1, load; simpl;
      rewrite list_lookup_insert_eq by (by eapply lookup_lt_Some); reflexivity.
  - apply Gosched_total. by destruct Hids.
Qed.

Lemma effect_ids_nonneg n w o w' :
  effect w o w' → op_ok n o → ids_nonneg w → ids_nonneg w'.
Proof.
  intros Heff Hop [Hpool Hreq].
  assert (Hsub : ∀ c file t w1, submitted c file w t w1 → (0 ≤ c)%Z → ids_nonneg w1).
  { intros c file t w1 Hs Hc.
    assert (Hreq1 : ∀ r, r ∈ Requests (fs w1) → (0 ≤ ClientID r)%Z).
    { intros r. rewrite (sub_Requests _ _ _ _ _ Hs).
      intros [Hin|Hin]%elem_of_app; [by apply Hreq|].
      apply list_elem_of_singleton in Hin as ->. done. }
    split; [|done].
    intros c' r Hin. apply (sub_pool _ _ _ _ _ Hs) in Hin.
    apply elem_of_app in Hin as [Hin|Hin]; [by eapply Hpool|].
    apply list_elem_of_fmap in Hin as (r' & [= -> ->] & Hin).
    apply list_elem_of_filter in Hin as [_ Hin]. by apply Hreq1. }
  destruct Heff as [| | | | c file t w1 f Hs | c file ? ? t w1 f Hs | c file ? t w1 f Hs
                    | ? Hbg]; simpl in Hop; try done.
  1-3: destruct (Hsub c file t w1 Hs) as [Hp1 Hr1]; [lia|]; by split.
  destruct Hbg as [_ HR _ _ _ _ _ HP _ _]. split.
  - intros c r Hin. by eapply Hpool, HP.
  - by rewrite HR.
Qed.

(** X21.  Panics come from negative client ids and from pointers to no
    object only.  From a world whose [Files] map matches its heap and
    which holds no negative client id, every run of operations returns,
    whatever the scheduler decides and the storage answers, provided the
    reads and writes are made with non-negative client ids and every read,
    write or close is given a pointer allocated before the run. *)
Theorem run_never_panics ops w :
  registry_ok w → ids_nonneg w → Forall (op_ok (length (heap w))) ops →
  ∃ w', run ops w = Ok (tt, w').
Proof.
  intros Hreg Hids Hops.
  assert (∀ n, n ≤ length (heap w) → Forall (op_ok n) ops → ∃ w', run ops w = Ok (tt, w'))
    as Hgen; [|by apply (Hgen (length (heap w)))].
  clear Hops. intros n Hn Hops. revert w Hreg Hids Hn.
  induction Hops as [|o ops Ho _ IH]; intros w Hreg Hids Hn.
  - by exists w.
  - destruct (exec_returns o w Hreg Hids) as [w1 H1].
    { destruct o; simpl in *; try done; lia. }
    pose proof (exec_inv _ _ _ H1) as Heff.
    destruct (effect_registry _ _ _ Heff Hreg) as (Hreg1 & _ & Hpre).
    apply prefix_length in Hpre. rewrite !length_fmap in Hpre.
    destruct (IH w1) as [w' H'];
      [done | by eapply effect_ids_nonneg | lia |].
    exists w'. apply run_cons. by exists w1.
Qed.

Lemma run_never_panics_witness : ∃ w', run demo_writes demo_world = Ok (tt, w').
Proof.
  apply run_never_panics.
  - exact registry_ok_demo_world.
  - split.
    + intros c r Hin. simpl in Hin. by apply elem_of_nil in Hin.
    + intros r Hin. simpl in Hin. apply list_elem_of_singleton in Hin as ->. simpl. lia.
  - repeat constructor; simpl; lia.
Defined.
